(** * Invite attribution and role granting of the Discord onboarding bot

    A shallow embedding of [src/index.ts] (gateway event handlers, the
    per-guild invite cache, [asignarRolPorInvite]) and of the
    [/generate-invite] route of [src/api.ts], followed by the properties
    of the attribution engine, the invite ledger and the role grantor.

    Conventions of the embedding:
    - a JavaScript [Map] / discord.js [Collection] is an insertion-ordered
      association list with unique keys ([JsMap]);
    - use counts and timestamps (milliseconds) are integers ([Z]);
    - [x ?? 0] is [nullish], [!x] on a [string | null] is [negb (truthy x)];
    - an [async] handler is a function of the [World] (cache, ledger,
      platform role assignments, trace of effects) that either completes
      or throws; effects performed before a throw stay in the world;
    - the outcome of each external call (store, platform, mail) is read
      from an [Env] record, so that failures can be explored. *)

From Stdlib Require Import String List ZArith Bool Lia.
Import ListNotations.
Open Scope string_scope.
Open Scope list_scope.
Open Scope Z_scope.

(* ================================================================== *)
(** ** JavaScript values *)

(** [!s] is [true] for [null] and for the empty string.  The platform
    issues non-empty invite codes, and the handlers read an empty code as
    no code at all ([!invite.code], [!usedCode]); the theorems on the
    attribution engine therefore speak of non-empty codes. *)
Definition truthy (s : option string) : bool :=
  match s with
  | Some c => negb (String.eqb c "")
  | None => false
  end.

(** [x ?? 0] *)
Definition nullish (x : option Z) : Z :=
  match x with
  | Some n => n
  | None => 0
  end.

(* ================================================================== *)
(** ** Insertion-ordered maps with string keys *)

Module JsMap.

Section Ops.
Context {V : Type}.

Definition t := list (string * V).

Definition empty : t := [].

Fixpoint get (m : t) (k : string) : option V :=
  match m with
  | [] => None
  | (k', v) :: m' => if String.eqb k' k then Some v else get m' k
  end.

Definition has (m : t) (k : string) : bool :=
  match get m k with
  | Some _ => true
  | None => false
  end.

(** [Map.prototype.set]: an existing key keeps its position, a new key
    goes last. *)
Fixpoint set (m : t) (k : string) (v : V) : t :=
  match m with
  | [] => [(k, v)]
  | (k', v') :: m' =>
      if String.eqb k' k then (k', v) :: m' else (k', v') :: set m' k v
  end.

Fixpoint delete (m : t) (k : string) : t :=
  match m with
  | [] => []
  | (k', v') :: m' =>
      if String.eqb k' k then m' else (k', v') :: delete m' k
  end.

Definition keys (m : t) : list string := map fst m.

Definition size (m : t) : nat := length m.

(** Keys of a [Map] are pairwise distinct. *)
Definition wf (m : t) : Prop := NoDup (keys m).

End Ops.

Arguments t : clear implicits.

End JsMap.

(* ================================================================== *)
(** ** Platform data *)

(** The part of a discord.js [Invite] the handlers read. *)
Record Invite := mkInvite {
  inv_code : string;
  inv_uses : option Z          (* [uses: number | null] *)
}.

(** [Collection<string, Invite>], keyed by invite code. *)
Definition Collection := JsMap.t Invite.

(** An invite snapshot: code -> use count, one per guild. *)
Definition Snapshot := JsMap.t Z.

Record Role := mkRole {
  role_name : string;
  position : Z
}.

Record GuildMember := mkMember {
  member_user_id : string;
  member_tag : string;
  member_guild : string;
  member_pending : bool
}.

(** [forEach(inv => map.set(inv.code!, inv.uses ?? 0))] on a fresh map. *)
Definition snapshot_of (coll : Collection) : Snapshot :=
  fold_left (fun m kv => JsMap.set m (inv_code (snd kv)) (nullish (inv_uses (snd kv))))
            coll JsMap.empty.

(** The use count the handler reads for [code] in the fetched collection. *)
Definition new_uses (new : Collection) (code : string) : option Z :=
  match JsMap.get new code with
  | Some inv => Some (nullish (inv_uses inv))
  | None => None
  end.

(* ================================================================== *)
(** ** The two snapshot scans of [guildMemberAdd] *)

(** Step 1: the first entry of the fetched collection whose use count
    exceeds the cached one, [oldInviteCache.get(code) ?? 0]. *)
Fixpoint increment_scan (old : Snapshot) (new : Collection) : option string :=
  match new with
  | [] => None
  | (code, newInviteObject) :: rest =>
      let oldUses := nullish (JsMap.get old code) in
      let newUses := nullish (inv_uses newInviteObject) in
      if newUses >? oldUses then Some code else increment_scan old rest
  end.

(** Step 2: the first cached code that the fetched collection lacks. *)
Fixpoint disappearance_scan (old : Snapshot) (new : Collection) : option string :=
  match old with
  | [] => None
  | (code, _) :: rest =>
      if negb (JsMap.has new code) then Some code
      else disappearance_scan rest new
  end.

(* ================================================================== *)
(** ** The invite ledger (table [invites]) *)

Inductive Status := PENDING | USED | EXPIRED.

Definition Status_eqb (a b : Status) : bool :=
  match a, b with
  | PENDING, PENDING | USED, USED | EXPIRED, EXPIRED => true
  | _, _ => false
  end.

(** One row of [invites]; the fields are the columns the queries name. *)
Record InviteRecord := mkRecord {
  invite_code : string;
  role_id : string;
  email : string;
  status : Status;
  created_at : Z;
  expires_at : Z;
  used_at : option Z;
  member_id : option string
}.

Definition Ledger := list InviteRecord.

Definition is_pending (r : InviteRecord) : bool := Status_eqb (status r) PENDING.

(** Modelled from the spec: the module [./database] and the schema of
    [invites] are not part of the sources.  The table is a list of rows in
    insertion order; [invite_code] is its unique key, so [sql_insert]
    rejects a code that is already stored.  The functions below are the
    SQL statements that the handlers send, read off their text. *)
Definition codes (l : Ledger) : list string := map invite_code l.

Definition unique_codes (l : Ledger) : Prop := NoDup (codes l).

(** [ORDER BY created_at DESC LIMIT 1]; among rows of equal [created_at]
    the earliest stored one is kept. *)
Fixpoint latest_created (rows : list InviteRecord) : option InviteRecord :=
  match rows with
  | [] => None
  | r :: rest =>
      match latest_created rest with
      | Some r' => if created_at r' >? created_at r then Some r' else Some r
      | None => Some r
      end
  end.

(** [SELECT invite_code FROM invites WHERE status = 'PENDING'
     ORDER BY created_at DESC LIMIT 1] *)
Definition sql_select_recent_pending (l : Ledger) : list InviteRecord :=
  match latest_created (filter is_pending l) with
  | Some r => [r]
  | None => []
  end.

(** [SELECT role_id, email FROM invites WHERE invite_code = $1 AND status = 'PENDING'] *)
Definition sql_select_pending_by_code (l : Ledger) (code : string) : list InviteRecord :=
  filter (fun r => String.eqb (invite_code r) code && is_pending r) l.

(** [SELECT invite_code, created_at FROM invites WHERE email = $1 AND status = 'PENDING'] *)
Definition sql_select_pending_by_email (l : Ledger) (e : string) : list InviteRecord :=
  filter (fun r => String.eqb (email r) e && is_pending r) l.

Definition mark_used (now : Z) (member : string) (r : InviteRecord) : InviteRecord :=
  {| invite_code := invite_code r; role_id := role_id r; email := email r;
     status := USED; created_at := created_at r; expires_at := expires_at r;
     used_at := Some now; member_id := Some member |}.

Definition mark_expired (r : InviteRecord) : InviteRecord :=
  {| invite_code := invite_code r; role_id := role_id r; email := email r;
     status := EXPIRED; created_at := created_at r; expires_at := expires_at r;
     used_at := used_at r; member_id := member_id r |}.

(** [UPDATE invites SET ... WHERE invite_code = $n]: every row of that
    code is rewritten by [set_columns]; no other condition is sent. *)
Definition sql_update (set_columns : InviteRecord -> InviteRecord)
    (l : Ledger) (code : string) : Ledger :=
  map (fun r => if String.eqb (invite_code r) code then set_columns r else r) l.

(** [UPDATE invites SET status='USED', used_at=$1, member_id=$2 WHERE invite_code=$3] *)
Definition sql_update_used (l : Ledger) (now : Z) (member code : string) : Ledger :=
  sql_update (mark_used now member) l code.

(** [UPDATE invites SET status = 'EXPIRED' WHERE invite_code = $1] *)
Definition sql_update_expired (l : Ledger) (code : string) : Ledger :=
  sql_update mark_expired l code.

(** [INSERT INTO invites (...) VALUES (...)]; [None] is the unique-key violation. *)
Definition sql_insert (l : Ledger) (r : InviteRecord) : option Ledger :=
  if existsb (String.eqb (invite_code r)) (codes l) then None else Some (l ++ [r]).

(* ================================================================== *)
(** ** Effects: the world, its trace, and the handler monad *)

Inductive Level := LOG | WARN | ERROR.

(** One constructor per [console.*] call of the sources. *)
Inductive Msg :=
| MsgCachePopulated (guildName guildId : string) (size : nat)
| MsgPopulateError (guildId : string)
| MsgInviteCreated (code guildId : string)
| MsgInviteDeleted (code guildId : string)
| MsgIncrement (code : string)
| MsgVanished (code : string)
| MsgFallback (code : string)
| MsgFallbackDbError
| MsgCacheBefore (old : Snapshot)
| MsgInvitesAfter (new : Collection)
| MsgUntrackable (tag : string)
| MsgJoinedWith (tag code : string)
| MsgScreening (tag : string)
| MsgScreeningDone (tag : string)
| MsgNoTrackable (tag : string)
| MsgPostScreeningError (tag : string)
| MsgTrying (tag code : string)
| MsgNotPending (code tag : string)
| MsgRoleMissing (roleId : string)
| MsgHierarchy (roleName tag : string)
| MsgRoleAssigned (roleName tag mail : string)
| MsgMarkedUsed (code : string)
| MsgGrantError (tag code : string)
| MsgValidPending (mail code : string)
| MsgExpiredPending (mail code : string)
| MsgGuildMissing
| MsgGuildFound
| MsgChannelInvalid
| MsgInviteIssued (code : string)
| MsgMailError
| MsgMailSent
| MsgEndpointError.

Inductive Event :=
| Console (lvl : Level) (m : Msg)
| RolesAdd (member role : string)                 (* [member.roles.add(role)] *)
| DbUpdateUsed (code member : string) (now : Z)
| DbUpdateExpired (code : string)
| DbInsert (r : InviteRecord)
| InviteIssued (code : string)                    (* [channel.createInvite] *)
| MailSend (recipient url : string).

Record World := mkWorld {
  inviteCache : JsMap.t Snapshot;        (* guildId -> (code -> uses) *)
  ledger : Ledger;
  memberRoles : list (string * string);  (* (member id, role id) granted *)
  trace : list Event
}.

Inductive Exn := DbError | PlatformError | TypeError.

Inductive Res (A : Type) :=
| Done (a : A)
| Thrown (e : Exn).
Arguments Done {A} a.
Arguments Thrown {A} e.

Definition M (A : Type) := World -> Res A * World.

Definition ret {A} (a : A) : M A := fun w => (Done a, w).

Definition bind {A B} (m : M A) (k : A -> M B) : M B :=
  fun w =>
    match m w with
    | (Done a, w') => k a w'
    | (Thrown e, w') => (Thrown e, w')
    end.

Definition throw {A} (e : Exn) : M A := fun w => (Thrown e, w).

(** [try { m } catch (e) { h e }] *)
Definition try_catch {A} (m : M A) (h : Exn -> M A) : M A :=
  fun w =>
    match m w with
    | (Done a, w') => (Done a, w')
    | (Thrown e, w') => h e w'
    end.

Notation "x <- m ;; k" := (bind m (fun x => k))
  (at level 61, m at next level, right associativity).
Notation "m ;; k" := (bind m (fun _ => k))
  (at level 61, right associativity).

Definition emit (e : Event) : M unit :=
  fun w => (Done tt,
            {| inviteCache := inviteCache w; ledger := ledger w;
               memberRoles := memberRoles w; trace := trace w ++ [e] |}).

Definition console (lvl : Level) (m : Msg) : M unit := emit (Console lvl m).

Definition set_ledger (l : Ledger) : M unit :=
  fun w => (Done tt,
            {| inviteCache := inviteCache w; ledger := l;
               memberRoles := memberRoles w; trace := trace w |}).

Definition set_cache (c : JsMap.t Snapshot) : M unit :=
  fun w => (Done tt,
            {| inviteCache := c; ledger := ledger w;
               memberRoles := memberRoles w; trace := trace w |}).

Definition get_cache : M (JsMap.t Snapshot) := fun w => (Done (inviteCache w), w).

Definition get_ledger : M Ledger := fun w => (Done (ledger w), w).

(* ================================================================== *)
(** ** The environment of one handler run *)

Inductive DbCall :=
| QRecentPending | QPendingByCode | QUpdateUsed
| QPendingByEmail | QUpdateExpired | QInsert | QLatestForMember.

Record CreatedInvite := mkCreated {
  ci_code : string;
  ci_url : string
}.

Inductive MailOutcome := MailOk | MailRejected | MailThrows.

Record Env := mkEnv {
  now : Z;                               (* [new Date()] at the first use *)
  now_create : Z;                        (* [new Date()] before the INSERT *)
  db_ok : DbCall -> bool;                (* does the store answer this call? *)
  fetched_guild : option string;         (* [client.guilds.fetch]: name, or rejects *)
  fetched_invites : option Collection;   (* [guild.invites.fetch], or rejects *)
  guild_roles : JsMap.t Role;            (* [member.guild.roles.cache] *)
  bot_highest : option Z;                (* [members.fetch(bot)].roles.highest.position *)
  roles_add_ok : bool;                   (* does [member.roles.add] resolve? *)
  screening_rows : list string;          (* rows of the post-screening query *)
  INVITE_TTL_SECONDS : option Z;         (* the environment variable, if set *)
  guild_cached : bool;                   (* [guilds.cache.get(GUILD_ID)] found *)
  channel_ok : bool;                     (* channel found and text or voice based *)
  created_invite : option CreatedInvite; (* [createInvite], or rejects *)
  mail_outcome : MailOutcome                (* [resend.emails.send] *)
}.

(** [Number(process.env.INVITE_TTL_SECONDS || 86400)] for a numeric setting. *)
Definition inviteTTLSeconds (env : Env) : Z :=
  match INVITE_TTL_SECONDS env with
  | Some n => n
  | None => 86400
  end.

Definition from_option {A} (o : option A) (e : Exn) : M A :=
  match o with
  | Some a => ret a
  | None => throw e
  end.

Definition db_query {A} (env : Env) (c : DbCall) (q : Ledger -> A) : M A :=
  if db_ok env c then (l <- get_ledger ;; ret (q l)) else throw DbError.

Definition db_update_used (env : Env) (usedAt : Z) (member code : string) : M unit :=
  if db_ok env QUpdateUsed then
    l <- get_ledger ;;
    set_ledger (sql_update_used l usedAt member code) ;;
    emit (DbUpdateUsed code member usedAt)
  else throw DbError.

Definition db_update_expired (env : Env) (code : string) : M unit :=
  if db_ok env QUpdateExpired then
    l <- get_ledger ;;
    set_ledger (sql_update_expired l code) ;;
    emit (DbUpdateExpired code)
  else throw DbError.

Definition db_insert (env : Env) (r : InviteRecord) : M unit :=
  if db_ok env QInsert then
    l <- get_ledger ;;
    match sql_insert l r with
    | Some l' => set_ledger l' ;; emit (DbInsert r)
    | None => throw DbError
    end
  else throw DbError.

Definition roles_add (env : Env) (member role : string) : M unit :=
  if roles_add_ok env then
    fun w => (Done tt,
              {| inviteCache := inviteCache w; ledger := ledger w;
                 memberRoles := memberRoles w ++ [(member, role)];
                 trace := trace w ++ [RolesAdd member role] |})
  else throw PlatformError.

(* ================================================================== *)
(** ** The invite cache handlers ([index.ts]) *)

Definition string_of (o : option string) : string :=
  match o with
  | Some s => s
  | None => ""
  end.

(** [inviteCache.get(guildId) || new Map()] *)
Definition snapshot (c : JsMap.t Snapshot) (guildId : string) : Snapshot :=
  match JsMap.get c guildId with
  | Some m => m
  | None => JsMap.empty
  end.

Definition populateGuildInvites (env : Env) (guildId : string) : M unit :=
  try_catch
    (guildName <- from_option (fetched_guild env) PlatformError ;;
     invitesCollection <- from_option (fetched_invites env) PlatformError ;;
     let map := snapshot_of invitesCollection in
     c <- get_cache ;;
     set_cache (JsMap.set c guildId map) ;;
     console LOG (MsgCachePopulated guildName guildId (JsMap.size map)))
    (fun _ => console ERROR (MsgPopulateError guildId)).

(** [client.on('inviteCreate', ...)] *)
Definition inviteCreate (gId code : option string) (uses : option Z) : M unit :=
  if negb (truthy gId) || negb (truthy code) then ret tt
  else
    c <- get_cache ;;
    (if negb (JsMap.has c (string_of gId))
     then set_cache (JsMap.set c (string_of gId) JsMap.empty)
     else ret tt) ;;
    c <- get_cache ;;
    set_cache (JsMap.set c (string_of gId)
                 (JsMap.set (snapshot c (string_of gId)) (string_of code) (nullish uses))) ;;
    console LOG (MsgInviteCreated (string_of code) (string_of gId)).

(** [client.on('inviteDelete', ...)] *)
Definition inviteDelete (gId code : option string) : M unit :=
  if negb (truthy gId) || negb (truthy code) then ret tt
  else
    c <- get_cache ;;
    match JsMap.get c (string_of gId) with
    | Some m => set_cache (JsMap.set c (string_of gId) (JsMap.delete m (string_of code)))
    | None => ret tt
    end ;;
    console LOG (MsgInviteDeleted (string_of code) (string_of gId)).

(* ================================================================== *)
(** ** The role grantor: [asignarRolPorInvite] *)

Definition asignarRolPorInvite (env : Env) (member : GuildMember) (code : string) : M unit :=
  console LOG (MsgTrying (member_tag member) code) ;;
  try_catch
    (rows <- db_query env QPendingByCode (fun l => sql_select_pending_by_code l code) ;;
     match rows with
     | [] => console LOG (MsgNotPending code (member_tag member))
     | row :: _ =>
         match JsMap.get (guild_roles env) (role_id row) with
         | None => console WARN (MsgRoleMissing (role_id row))
         | Some role =>
             botHighest <- from_option (bot_highest env) PlatformError ;;
             if position role >=? botHighest then
               console WARN (MsgHierarchy (role_name role) (member_tag member))
             else
               roles_add env (member_user_id member) (role_id row) ;;
               console LOG (MsgRoleAssigned (role_name role) (member_tag member) (email row)) ;;
               db_update_used env (now env) (member_user_id member) code ;;
               console LOG (MsgMarkedUsed code)
         end
     end)
    (fun _ => console ERROR (MsgGrantError (member_tag member) code)).

(* ================================================================== *)
(** ** The attribution engine and the join handlers *)

(** Steps 1, 2 and the ledger fallback of [guildMemberAdd]; the value is
    [usedCode] as it stands before the cache is refreshed. *)
Definition attribution (env : Env) (old : Snapshot) (new : Collection) : M (option string) :=
  (* Paso 1 *)
  usedCode <- match increment_scan old new with
              | Some code => console LOG (MsgIncrement code) ;; ret (Some code)
              | None => ret None
              end ;;
  (* Paso 2 *)
  usedCode <- (if negb (truthy usedCode) then
                 match disappearance_scan old new with
                 | Some code => console LOG (MsgVanished code) ;; ret (Some code)
                 | None => ret usedCode
                 end
               else ret usedCode) ;;
  (* Fallback *)
  if negb (truthy usedCode) then
    try_catch
      (rows <- db_query env QRecentPending sql_select_recent_pending ;;
       match rows with
       | row :: _ =>
           console LOG (MsgFallback (invite_code row)) ;;
           ret (Some (invite_code row))
       | [] => ret usedCode
       end)
      (fun _ => console ERROR MsgFallbackDbError ;; ret usedCode)
  else ret usedCode.

(** [client.on('guildMemberAdd', ...)]; a rejected [invites.fetch] leaves
    the handler through its first [await]. *)
Definition guildMemberAdd (env : Env) (member : GuildMember) : M unit :=
  c <- get_cache ;;
  let oldInviteCache := snapshot c (member_guild member) in
  newInvitesCollection <- from_option (fetched_invites env) PlatformError ;;
  usedCode <- attribution env oldInviteCache newInvitesCollection ;;
  c <- get_cache ;;
  set_cache (JsMap.set c (member_guild member) (snapshot_of newInvitesCollection)) ;;
  console LOG (MsgCacheBefore oldInviteCache) ;;
  console LOG (MsgInvitesAfter newInvitesCollection) ;;
  if negb (truthy usedCode) then
    console LOG (MsgUntrackable (member_tag member))
  else
    console LOG (MsgJoinedWith (member_tag member) (string_of usedCode)) ;;
    if member_pending member then
      console LOG (MsgScreening (member_tag member))
    else
      asignarRolPorInvite env member (string_of usedCode).

(** [client.on('guildMemberUpdate', ...)].  The rows of its nested SELECT
    are taken from the environment ([screening_rows]); only the control
    flow around the query is embedded. *)
Definition guildMemberUpdate (env : Env) (oldPending : bool) (newMember : GuildMember) : M unit :=
  if oldPending && negb (member_pending newMember) then
    console LOG (MsgScreeningDone (member_tag newMember)) ;;
    try_catch
      (rows <- db_query env QLatestForMember (fun _ => screening_rows env) ;;
       match rows with
       | code :: _ => asignarRolPorInvite env newMember code
       | [] => console LOG (MsgNoTrackable (member_tag newMember))
       end)
      (fun _ => console ERROR (MsgPostScreeningError (member_tag newMember)))
  else ret tt.

(* ================================================================== *)
(** ** Invite issuance: [POST /generate-invite] ([api.ts]) *)

Record IssueRequest := mkRequest {
  req_email : option string;
  req_roleId : option string
}.

Record Response := mkResponse {
  resp_status : Z;
  resp_inviteUrl : option string
}.

Definition new_record (code roleId mail : string) (createdAt expiresAt : Z) : InviteRecord :=
  {| invite_code := code; role_id := roleId; email := mail; status := PENDING;
     created_at := createdAt; expires_at := expiresAt;
     used_at := None; member_id := None |}.

(** The expiry instant the route computes for a stored row:
    [createdAt.getTime() + inviteTTLSeconds * 1000]. *)
Definition expiresAt_of (env : Env) (r : InviteRecord) : Z :=
  created_at r + inviteTTLSeconds env * 1000.

Definition generate_invite (env : Env) (req : IssueRequest) : M Response :=
  if negb (truthy (req_email req)) || negb (truthy (req_roleId req)) then
    ret (mkResponse 400 None)
  else
    let mail := string_of (req_email req) in
    let roleId := string_of (req_roleId req) in
    try_catch
      ((* 1. existing PENDING invite of this email *)
       rows <- db_query env QPendingByEmail (fun l => sql_select_pending_by_email l mail) ;;
       st <- match hd_error rows with
             | Some existing =>
                 if now env <? expiresAt_of env existing then
                   console LOG (MsgValidPending mail (invite_code existing)) ;;
                   ret (Some existing, "https://discord.gg/" ++ invite_code existing)%string
                 else
                   console LOG (MsgExpiredPending mail (invite_code existing)) ;;
                   db_update_expired env (invite_code existing) ;;
                   ret (None, "")
             | None => ret (None, "")
             end ;;
       r <- match fst st with
            | Some _ => ret (inr (snd st))
            | None =>
                if negb (guild_cached env) then
                  console LOG MsgGuildMissing ;;
                  ret (inl (mkResponse 500 None))
                else
                  console LOG MsgGuildFound ;;
                  if negb (channel_ok env) then
                    console LOG MsgChannelInvalid ;;
                    ret (inl (mkResponse 500 None))
                  else
                    invite <- from_option (created_invite env) PlatformError ;;
                    emit (InviteIssued (ci_code invite)) ;;
                    console LOG (MsgInviteIssued (ci_code invite)) ;;
                    let createdAt := now_create env in
                    let expiresAt := createdAt + inviteTTLSeconds env * 1000 in
                    db_insert env (new_record (ci_code invite) roleId mail createdAt expiresAt) ;;
                    ret (inr (ci_url invite))
            end ;;
       match r with
       | inl response => ret response
       | inr inviteUrl =>
           match mail_outcome env with
           | MailThrows => throw PlatformError
           | MailRejected =>
               emit (MailSend mail inviteUrl) ;;
               console ERROR MsgMailError ;;
               ret (mkResponse 200 (Some inviteUrl))
           | MailOk =>
               emit (MailSend mail inviteUrl) ;;
               console LOG MsgMailSent ;;
               ret (mkResponse 200 (Some inviteUrl))
           end
       end)
      (fun _ => console ERROR MsgEndpointError ;; ret (mkResponse 500 None)).

(* ================================================================== *)
(** ** The handlers between their awaits

    A handler is suspended at each [await], and other handlers may run
    before it resumes.  The definitions above run a handler from its
    first statement to its last; the ones below cut the two handlers that
    read the ledger and write it later at the [await] that lies between
    the read and the write, so that a schedule can place other code
    there.  Run one after the other, the two parts are the handler
    ([asignarRolPorInvite_parts], [generate_invite_parts]). *)

(** [asignarRolPorInvite] up to the resolution of [member.roles.add]:
    the PENDING-filtered SELECT, the role checks and the role assignment.
    The value tells whether the UPDATE is still to be sent. *)
Definition asignarRolPorInvite_grant (env : Env) (member : GuildMember) (code : string)
    : M bool :=
  console LOG (MsgTrying (member_tag member) code) ;;
  try_catch
    (rows <- db_query env QPendingByCode (fun l => sql_select_pending_by_code l code) ;;
     match rows with
     | [] => console LOG (MsgNotPending code (member_tag member)) ;; ret false
     | row :: _ =>
         match JsMap.get (guild_roles env) (role_id row) with
         | None => console WARN (MsgRoleMissing (role_id row)) ;; ret false
         | Some role =>
             botHighest <- from_option (bot_highest env) PlatformError ;;
             if position role >=? botHighest then
               console WARN (MsgHierarchy (role_name role) (member_tag member)) ;;
               ret false
             else
               roles_add env (member_user_id member) (role_id row) ;;
               console LOG (MsgRoleAssigned (role_name role) (member_tag member) (email row)) ;;
               ret true
         end
     end)
    (fun _ => console ERROR (MsgGrantError (member_tag member) code) ;; ret false).

(** The rest of [asignarRolPorInvite]: the UPDATE that marks the code
    USED, with the handler's [catch]. *)
Definition asignarRolPorInvite_markUsed (env : Env) (member : GuildMember) (code : string)
    : M unit :=
  try_catch
    (db_update_used env (now env) (member_user_id member) code ;;
     console LOG (MsgMarkedUsed code))
    (fun _ => console ERROR (MsgGrantError (member_tag member) code)).

(** Where the route stands once [createInvite] has resolved. *)
Inductive IssueStage :=
| StageAnswered (response : Response)       (* the answer was sent *)
| StageMail (inviteUrl : string)            (* a valid invite is reused *)
| StageInsert (invite : CreatedInvite).     (* the new invite awaits its INSERT *)

(** [/generate-invite] up to the resolution of [createInvite]: the test
    of the request, the SELECT by email, the expiry test with its UPDATE,
    the guild and channel lookups and the creation of the invite. *)
Definition generate_invite_prepare (env : Env) (req : IssueRequest) : M IssueStage :=
  if negb (truthy (req_email req)) || negb (truthy (req_roleId req)) then
    ret (StageAnswered (mkResponse 400 None))
  else
    let mail := string_of (req_email req) in
    try_catch
      (rows <- db_query env QPendingByEmail (fun l => sql_select_pending_by_email l mail) ;;
       st <- match hd_error rows with
             | Some existing =>
                 if now env <? expiresAt_of env existing then
                   console LOG (MsgValidPending mail (invite_code existing)) ;;
                   ret (Some existing, "https://discord.gg/" ++ invite_code existing)%string
                 else
                   console LOG (MsgExpiredPending mail (invite_code existing)) ;;
                   db_update_expired env (invite_code existing) ;;
                   ret (None, "")
             | None => ret (None, "")
             end ;;
       match fst st with
       | Some _ => ret (StageMail (snd st))
       | None =>
           if negb (guild_cached env) then
             console LOG MsgGuildMissing ;;
             ret (StageAnswered (mkResponse 500 None))
           else
             console LOG MsgGuildFound ;;
             if negb (channel_ok env) then
               console LOG MsgChannelInvalid ;;
               ret (StageAnswered (mkResponse 500 None))
             else
               invite <- from_option (created_invite env) PlatformError ;;
               emit (InviteIssued (ci_code invite)) ;;
               console LOG (MsgInviteIssued (ci_code invite)) ;;
               ret (StageInsert invite)
       end)
      (fun _ => console ERROR MsgEndpointError ;; ret (StageAnswered (mkResponse 500 None))).

(** The rest of the route: the INSERT of the new row, the mail and the
    answer, with the route's [catch]. *)
Definition generate_invite_finish (env : Env) (req : IssueRequest) (stage : IssueStage)
    : M Response :=
  let mail := string_of (req_email req) in
  let roleId := string_of (req_roleId req) in
  match stage with
  | StageAnswered response => ret response
  | _ =>
      try_catch
        (inviteUrl <- match stage with
                      | StageInsert invite =>
                          let createdAt := now_create env in
                          let expiresAt := createdAt + inviteTTLSeconds env * 1000 in
                          db_insert env
                            (new_record (ci_code invite) roleId mail createdAt expiresAt) ;;
                          ret (ci_url invite)
                      | StageMail inviteUrl => ret inviteUrl
                      | StageAnswered _ => ret ""
                      end ;;
         match mail_outcome env with
         | MailThrows => throw PlatformError
         | MailRejected =>
             emit (MailSend mail inviteUrl) ;;
             console ERROR MsgMailError ;;
             ret (mkResponse 200 (Some inviteUrl))
         | MailOk =>
             emit (MailSend mail inviteUrl) ;;
             console LOG MsgMailSent ;;
             ret (mkResponse 200 (Some inviteUrl))
         end)
        (fun _ => console ERROR MsgEndpointError ;; ret (mkResponse 500 None))
  end.

(** The route as express calls it.  [const { email, roleId } = req.body]
    stands before the [try]: when no body was parsed ([req.body] is
    [undefined]) the destructuring throws and the route sends no answer
    of its own. *)
Definition generate_invite_route (env : Env) (body : option IssueRequest) : M Response :=
  match body with
  | Some req => generate_invite env req
  | None => throw TypeError
  end.

(** The three statements with which the handlers write the ledger. *)
Inductive ledger_write : Ledger -> Ledger -> Prop :=
| write_used l usedAt member code :
    ledger_write l (sql_update_used l usedAt member code)
| write_expired l code :
    ledger_write l (sql_update_expired l code)
| write_insert l r l' :
    status r = PENDING -> sql_insert l r = Some l' -> ledger_write l l'.

(** Any number of such writes, in any order. *)
Inductive ledger_writes : Ledger -> Ledger -> Prop :=
| writes_none l : ledger_writes l l
| writes_then l l1 l2 : ledger_writes l l1 -> ledger_write l1 l2 -> ledger_writes l l2.

(* ================================================================== *)
(** * Properties *)

(** The world after the events [evs] were appended to its trace. *)
Definition logged (w : World) (evs : list Event) : World :=
  {| inviteCache := inviteCache w; ledger := ledger w;
     memberRoles := memberRoles w; trace := trace w ++ evs |}.

(** Vocabulary for pairs of snapshots. *)
Definition increased_in_both (old : Snapshot) (new : Collection) (c : string) : Prop :=
  exists o n, JsMap.get old c = Some o /\ new_uses new c = Some n /\ o < n.

Definition none_vanished (old : Snapshot) (new : Collection) : Prop :=
  forall c, JsMap.has old c = true -> JsMap.has new c = true.

Definition vanished (old : Snapshot) (new : Collection) (c : string) : Prop :=
  JsMap.has old c = true /\ JsMap.has new c = false.

(** A code of [new] that [old] lacks carries no use. *)
Definition new_only_unused (old : Snapshot) (new : Collection) : Prop :=
  forall c n, JsMap.has old c = false -> new_uses new c = Some n -> n <= 0.

(** No count of [new] exceeds the cached one, a code that [old] lacks
    counting as cached at 0 (the convention of the increment scan). *)
Definition no_increase (old : Snapshot) (new : Collection) : Prop :=
  forall c n, new_uses new c = Some n -> n <= nullish (JsMap.get old c).

Definition is_most_recent_pending (l : Ledger) (r : InviteRecord) : Prop :=
  In r l /\ status r = PENDING /\
  forall r', In r' l -> status r' = PENDING -> created_at r' <= created_at r.

(** At most one PENDING row per email. *)
Definition pending_emails (l : Ledger) : list string := map email (filter is_pending l).

Definition one_pending_per_email (l : Ledger) : Prop := NoDup (pending_emails l).

(** Computations that complete and only append to the trace. *)
Definition appends_only {A} (m : M A) : Prop :=
  forall w, exists a evs, m w = (Done a, logged w evs).

(** The fetched collection is keyed by the code of each invite. *)
Definition keyed_by_code (coll : Collection) : Prop :=
  forall k i, In (k, i) coll -> inv_code i = k.

(** The two ledger invariants of the data model. *)
Definition ledger_invariant (l : Ledger) : Prop :=
  unique_codes l /\ one_pending_per_email l.

(** One run of a handler, from the world it starts in to the world it leaves. *)
Inductive handler_run : World -> World -> Prop :=
| run_populate env guildId w :
    handler_run w (snd (populateGuildInvites env guildId w))
| run_inviteCreate gId code uses w :
    handler_run w (snd (inviteCreate gId code uses w))
| run_inviteDelete gId code w :
    handler_run w (snd (inviteDelete gId code w))
| run_guildMemberAdd env member w :
    handler_run w (snd (guildMemberAdd env member w))
| run_guildMemberUpdate env oldPending newMember w :
    handler_run w (snd (guildMemberUpdate env oldPending newMember w))
| run_generate_invite env req w :
    handler_run w (snd (generate_invite env req w)).

Definition initial_world : World :=
  {| inviteCache := []; ledger := []; memberRoles := []; trace := [] |}.

(** Worlds reached from the initial one by handler runs that do not
    overlap: each run ends before the next one starts. *)
Inductive reachable : World -> Prop :=
| reachable_initial : reachable initial_world
| reachable_step w w' : reachable w -> handler_run w w' -> reachable w'.

(* ------------------------------------------------------------------ *)
(** ** Sample data: the scenarios of the specification *)

Module Sample.

Definition inv (code : string) (uses : Z) : Invite := mkInvite code (Some uses).

Definition member : GuildMember := mkMember "u1" "user#0001" "G1" false.

Definition gated_member : GuildMember := mkMember "u2" "user#0002" "G1" true.

(** An environment in which every external call succeeds. *)
Definition env (t : Z) (roles : JsMap.t Role) (bot : Z) (fetched : Collection) : Env :=
  {| now := t; now_create := t; db_ok := fun _ => true;
     fetched_guild := Some "guild"; fetched_invites := Some fetched;
     guild_roles := roles; bot_highest := Some bot; roles_add_ok := true;
     screening_rows := []; INVITE_TTL_SECONDS := None;
     guild_cached := true; channel_ok := true;
     created_invite := Some (mkCreated "NEW001" "https://discord.gg/NEW001");
     mail_outcome := MailOk |}.

(** The same, with the store refusing the call [c]. *)
Definition env_db_down (c : DbCall) (e : Env) : Env :=
  {| now := now e; now_create := now_create e;
     db_ok := fun c' => match c, c' with
                        | QRecentPending, QRecentPending | QPendingByCode, QPendingByCode
                        | QUpdateUsed, QUpdateUsed | QPendingByEmail, QPendingByEmail
                        | QUpdateExpired, QUpdateExpired | QInsert, QInsert
                        | QLatestForMember, QLatestForMember => false
                        | _, _ => db_ok e c'
                        end;
     fetched_guild := fetched_guild e; fetched_invites := fetched_invites e;
     guild_roles := guild_roles e; bot_highest := bot_highest e;
     roles_add_ok := roles_add_ok e; screening_rows := screening_rows e;
     INVITE_TTL_SECONDS := INVITE_TTL_SECONDS e;
     guild_cached := guild_cached e; channel_ok := channel_ok e;
     created_invite := created_invite e; mail_outcome := mail_outcome e |}.

(** The same, with the invite list unavailable. *)
Definition env_fetch_down (e : Env) : Env :=
  {| now := now e; now_create := now_create e; db_ok := db_ok e;
     fetched_guild := fetched_guild e; fetched_invites := None;
     guild_roles := guild_roles e; bot_highest := bot_highest e;
     roles_add_ok := roles_add_ok e; screening_rows := screening_rows e;
     INVITE_TTL_SECONDS := INVITE_TTL_SECONDS e;
     guild_cached := guild_cached e; channel_ok := channel_ok e;
     created_invite := created_invite e; mail_outcome := mail_outcome e |}.

Definition world (cache : JsMap.t Snapshot) (l : Ledger) : World :=
  {| inviteCache := cache; ledger := l; memberRoles := []; trace := [] |}.

Definition pending (code role mail : string) (createdAt : Z) : InviteRecord :=
  new_record code role mail createdAt (createdAt + 86400000).

Definition used (code role mail : string) (createdAt usedAt : Z) (who : string) : InviteRecord :=
  mark_used usedAt who (pending code role mail createdAt).

Definition roles_R1 (rank : Z) : JsMap.t Role := [("R1", mkRole "member" rank)].

(** Scenario (a), with a second invite whose count did not move. *)
Definition old_a : Snapshot := [("ABC123", 0); ("OTHER1", 2)].
Definition new_a : Collection := [("OTHER1", inv "OTHER1" 2); ("ABC123", inv "ABC123" 1)].

(** An invite that the cache never saw arrives first in the fetched list. *)
Definition old_unseen : Snapshot := [("A", 0)].
Definition new_unseen : Collection := [("B", inv "B" 1); ("A", inv "A" 1)].

(** Scenario (b). *)
Definition old_b : Snapshot := [("XYZ789", 0)].
Definition new_b : Collection := [].

(** A used invite next to a vanished one. *)
Definition old_both : Snapshot := [("ABC123", 0); ("GONE01", 0)].
Definition new_both : Collection := [("ABC123", inv "ABC123" 1)].

(** Scenario (c). *)
Definition ledger_c : Ledger :=
  [pending "FALLBACK0" "R1" "a@x.com" 5;
   pending "FALLBACK1" "R1" "b@x.com" 10;
   used "USED01" "R1" "c@x.com" 20 25 "u0"].

Definition ledger_no_pending : Ledger := [used "USED01" "R1" "c@x.com" 20 25 "u0"].

(** Scenario (d): the role of the invite. *)
Definition ledger_d : Ledger :=
  [used "USED01" "R1" "c@x.com" 20 25 "u0"; pending "ABC123" "R1" "a@x.com" 30].

(** Scenario (e): issued at 0, requested again after 90000 s. *)
Definition ledger_e : Ledger := [pending "OLD001" "R1" "a@x.com" 0].
Definition request_e : IssueRequest := mkRequest (Some "a@x.com") (Some "R1").

End Sample.

(* ------------------------------------------------------------------ *)
(** ** Further vocabulary: the cache, requests, the life of a row *)

(** Every map of the cache has pairwise distinct keys. *)
Definition cache_wf (c : JsMap.t Snapshot) : Prop :=
  JsMap.wf c /\ forall g m, In (g, m) c -> JsMap.wf m.

(** The route's test [!email || !roleId] passes. *)
Definition valid_request (req : IssueRequest) : bool :=
  truthy (req_email req) && truthy (req_roleId req).

(** A stored row later on: its code, role, email, creation and expiry
    times are those it was stored with, and if it is PENDING it is the
    row as it was stored. *)
Definition row_kept (r r' : InviteRecord) : Prop :=
  invite_code r' = invite_code r /\ role_id r' = role_id r /\ email r' = email r /\
  created_at r' = created_at r /\ expires_at r' = expires_at r /\
  (status r' = PENDING -> r' = r).

(** The grantor ran to its end on [code] for a PENDING row of the ledger of
    [w]: the role was assigned and the row marked USED. *)
Definition granted (env : Env) (member : GuildMember) (code : string)
    (row : InviteRecord) (w w' : World) : Prop :=
  In row (ledger w) /\ invite_code row = code /\ status row = PENDING /\
  memberRoles w' = memberRoles w ++ [(member_user_id member, role_id row)] /\
  ledger w' = sql_update_used (ledger w) (now env) (member_user_id member) code.

Module Sample2.

Definition cache : JsMap.t Snapshot := [("G1", Sample.old_a); ("G2", Sample.old_b)].

Definition world : World :=
  {| inviteCache := cache; ledger := Sample.ledger_d; memberRoles := []; trace := [] |}.

(** A fetched list keyed by code, one invite without a use count. *)
Definition fetched : Collection :=
  [("ABC123", Sample.inv "ABC123" 1); ("FRESH1", mkInvite "FRESH1" None)].

(** Every external call succeeds; the bot ranks above role [R1]. *)
Definition env_ok : Env := Sample.env 40 (Sample.roles_R1 2) 3 fetched.

Definition env_no_guild (e : Env) : Env :=
  {| now := now e; now_create := now_create e; db_ok := db_ok e;
     fetched_guild := fetched_guild e; fetched_invites := fetched_invites e;
     guild_roles := guild_roles e; bot_highest := bot_highest e;
     roles_add_ok := roles_add_ok e; screening_rows := screening_rows e;
     INVITE_TTL_SECONDS := INVITE_TTL_SECONDS e;
     guild_cached := false; channel_ok := channel_ok e;
     created_invite := created_invite e; mail_outcome := mail_outcome e |}.

Definition env_rows (rows : list string) (e : Env) : Env :=
  {| now := now e; now_create := now_create e; db_ok := db_ok e;
     fetched_guild := fetched_guild e; fetched_invites := fetched_invites e;
     guild_roles := guild_roles e; bot_highest := bot_highest e;
     roles_add_ok := roles_add_ok e; screening_rows := rows;
     INVITE_TTL_SECONDS := INVITE_TTL_SECONDS e;
     guild_cached := guild_cached e; channel_ok := channel_ok e;
     created_invite := created_invite e; mail_outcome := mail_outcome e |}.

Definition request : IssueRequest := mkRequest (Some "new@x.com") (Some "R1").

End Sample2.

(** Two schedules that place one handler inside the await of another. *)
Module Schedule.

(** Two joins attributed to the code [ABC123]: the second is handled
    while the first awaits [member.roles.add]. *)
Definition env_a : Env := Sample2.env_ok.
Definition env_b : Env := Sample.env 35 (Sample.roles_R1 2) 3 Sample2.fetched.
Definition member_a : GuildMember := Sample.member.
Definition member_b : GuildMember := Sample.gated_member.

Definition after_grant_a : World :=
  snd (asignarRolPorInvite_grant env_a member_a "ABC123" Sample2.world).
Definition after_run_b : World :=
  snd (asignarRolPorInvite env_b member_b "ABC123" after_grant_a).
Definition after_markUsed_a : World :=
  snd (asignarRolPorInvite_markUsed env_a member_a "ABC123" after_run_b).

(** Two requests for the address [new@x.com]: the second arrives while
    the first awaits [createInvite]. *)
Definition invite_1 : CreatedInvite := mkCreated "NEW001" "https://discord.gg/NEW001".
Definition invite_2 : CreatedInvite := mkCreated "NEW002" "https://discord.gg/NEW002".

Definition env_invite (invite : CreatedInvite) (e : Env) : Env :=
  {| now := now e; now_create := now_create e; db_ok := db_ok e;
     fetched_guild := fetched_guild e; fetched_invites := fetched_invites e;
     guild_roles := guild_roles e; bot_highest := bot_highest e;
     roles_add_ok := roles_add_ok e; screening_rows := screening_rows e;
     INVITE_TTL_SECONDS := INVITE_TTL_SECONDS e;
     guild_cached := guild_cached e; channel_ok := channel_ok e;
     created_invite := Some invite; mail_outcome := mail_outcome e |}.

Definition env_1 : Env := env_invite invite_1 Sample2.env_ok.
Definition env_2 : Env := env_invite invite_2 Sample2.env_ok.

Definition after_prepare_1 : World :=
  snd (generate_invite_prepare env_1 Sample2.request initial_world).
Definition after_prepare_2 : World :=
  snd (generate_invite_prepare env_2 Sample2.request after_prepare_1).
Definition after_finish_1 : World :=
  snd (generate_invite_finish env_1 Sample2.request (StageInsert invite_1) after_prepare_2).
Definition after_finish_2 : World :=
  snd (generate_invite_finish env_2 Sample2.request (StageInsert invite_2) after_finish_1).

End Schedule.

(* ------------------------------------------------------------------ *)
(** ** Maps *)

Module JsMapFacts.
Import JsMap.

Section Facts.
Context {V : Type}.
Implicit Types (m : JsMap.t V) (k : string) (v : V).

Lemma get_In m k v : get m k = Some v -> In (k, v) m.
Proof.
  induction m as [|[k' v'] m IH]; simpl; [discriminate|].
  destruct (String.eqb_spec k' k) as [->|Hne]; intros H.
  - injection H as ->. now left.
  - right. now apply IH.
Qed.

Lemma In_get m k v : wf m -> In (k, v) m -> get m k = Some v.
Proof.
  unfold wf, keys.
  induction m as [|[k' v'] m IH]; simpl; [easy|].
  intros Hnd [Heq|Hin].
  - injection Heq as -> ->. now rewrite String.eqb_refl.
  - inversion Hnd as [|? ? Hnotin Hnd']; subst.
    destruct (String.eqb_spec k' k) as [->|Hne].
    + exfalso. apply Hnotin. now apply (in_map fst) in Hin.
    + now apply IH.
Qed.

Lemma has_true_iff m k : has m k = true <-> In k (keys m).
Proof.
  unfold has, keys.
  induction m as [|[k' v'] m IH]; simpl.
  - split; [discriminate|easy].
  - destruct (String.eqb_spec k' k) as [->|Hne].
    + split; auto.
    + rewrite IH. split; [auto|]. now intros [?|?].
Qed.

Lemma has_false_get m k : has m k = false <-> get m k = None.
Proof. unfold has. destruct (get m k); split; congruence. Qed.

Lemma get_set_same m k v : get (set m k v) k = Some v.
Proof.
  induction m as [|[k' v'] m IH]; simpl.
  - now rewrite String.eqb_refl.
  - destruct (String.eqb_spec k' k) as [->|Hne]; simpl.
    + now rewrite String.eqb_refl.
    + now apply String.eqb_neq in Hne as ->.
Qed.

Lemma get_set_other m k k' v : k' <> k -> get (set m k v) k' = get m k'.
Proof.
  intros Hne.
  induction m as [|[k0 v0] m IH]; simpl.
  - apply not_eq_sym in Hne. now apply String.eqb_neq in Hne as ->.
  - destruct (String.eqb_spec k0 k) as [->|Hne0]; simpl.
    + apply not_eq_sym in Hne. now apply String.eqb_neq in Hne as ->.
    + now rewrite IH.
Qed.

End Facts.

End JsMapFacts.

(* ------------------------------------------------------------------ *)
(** ** The scans *)

Lemma increment_scan_some old new c :
  increment_scan old new = Some c ->
  exists inv, In (c, inv) new /\ nullish (JsMap.get old c) < nullish (inv_uses inv).
Proof.
  induction new as [|[k i] new IH]; simpl; [discriminate|].
  destruct (Z.gtb_spec (nullish (inv_uses i)) (nullish (JsMap.get old k))) as [Hgt|Hle].
  - intros [= ->]. exists i. split; [now left|lia].
  - intros H. destruct (IH H) as (inv & Hin & Hlt). exists inv. split; [now right|easy].
Qed.

Lemma increment_scan_none old new :
  increment_scan old new = None ->
  forall k i, In (k, i) new -> nullish (inv_uses i) <= nullish (JsMap.get old k).
Proof.
  induction new as [|[k0 i0] new IH]; simpl; [easy|].
  destruct (Z.gtb_spec (nullish (inv_uses i0)) (nullish (JsMap.get old k0))) as [Hgt|Hle];
    [discriminate|].
  intros H k i [[= -> ->]|Hin]; [easy|now apply IH].
Qed.

(** The scan stops at the first entry whose count rose. *)
Lemma increment_scan_first old pre c inv post :
  (forall k i, In (k, i) pre -> nullish (inv_uses i) <= nullish (JsMap.get old k)) ->
  nullish (JsMap.get old c) < nullish (inv_uses inv) ->
  increment_scan old (pre ++ (c, inv) :: post) = Some c.
Proof.
  intros Hpre Hlt.
  induction pre as [|[k i] pre IH]; simpl.
  - destruct (Z.gtb_spec (nullish (inv_uses inv)) (nullish (JsMap.get old c))); [easy|lia].
  - destruct (Z.gtb_spec (nullish (inv_uses i)) (nullish (JsMap.get old k))) as [Hgt|Hle].
    + specialize (Hpre k i (or_introl eq_refl)). lia.
    + apply IH. intros k' i' Hin. apply Hpre. now right.
Qed.

Lemma disappearance_scan_some old new c :
  disappearance_scan old new = Some c -> vanished old new c.
Proof.
  unfold vanished.
  induction old as [|[k u] old IH]; simpl; [discriminate|].
  destruct (JsMap.has new k) eqn:Hhas; simpl.
  - intros H. destruct (IH H) as [Hold Hnew]. split; [|easy].
    apply JsMapFacts.has_true_iff. right. now apply JsMapFacts.has_true_iff.
  - intros [= ->]. split; [|easy].
    apply JsMapFacts.has_true_iff. now left.
Qed.

Lemma disappearance_scan_none old new :
  disappearance_scan old new = None -> none_vanished old new.
Proof.
  unfold none_vanished.
  induction old as [|[k u] old IH]; simpl.
  - intros _ c Hc. apply JsMapFacts.has_true_iff in Hc. destruct Hc.
  - destruct (JsMap.has new k) eqn:Hhas; simpl; [|discriminate].
    intros H c Hc. apply JsMapFacts.has_true_iff in Hc. destruct Hc as [<-|Hc]; [easy|].
    apply IH; [easy|]. now apply JsMapFacts.has_true_iff.
Qed.

Lemma truthy_code c : c <> "" -> truthy (Some c) = true.
Proof. intros H. simpl. now apply String.eqb_neq in H as ->. Qed.

(** When step 1 finds a non-empty code, that is the attribution; neither
    the disappearance scan nor the ledger is consulted. *)
Lemma attribution_increment env old new c w :
  increment_scan old new = Some c -> c <> "" ->
  attribution env old new w = (Done (Some c), logged w [Console LOG (MsgIncrement c)]).
Proof.
  intros Hscan Hc. unfold attribution, bind, console, emit, ret.
  rewrite Hscan. simpl. apply String.eqb_neq in Hc. now rewrite !Hc; simpl; rewrite ?Hc.
Qed.

(** When step 1 finds nothing and step 2 finds a non-empty code. *)
Lemma attribution_vanished env old new c w :
  increment_scan old new = None -> disappearance_scan old new = Some c -> c <> "" ->
  attribution env old new w = (Done (Some c), logged w [Console LOG (MsgVanished c)]).
Proof.
  intros Hinc Hdis Hc. unfold attribution, bind, console, emit, ret.
  rewrite Hinc. simpl. rewrite Hdis. simpl. apply String.eqb_neq in Hc. now rewrite Hc.
Qed.

(** When both scans find nothing the ledger decides, if the store answers. *)
Lemma attribution_fallback env old new w :
  increment_scan old new = None -> disappearance_scan old new = None ->
  db_ok env QRecentPending = true ->
  attribution env old new w =
    match sql_select_recent_pending (ledger w) with
    | row :: _ => (Done (Some (invite_code row)),
                   logged w [Console LOG (MsgFallback (invite_code row))])
    | [] => (Done None, w)
    end.
Proof.
  intros Hinc Hdis Hdb.
  unfold attribution, bind, console, emit, ret, try_catch, db_query, get_ledger.
  rewrite Hinc. simpl. rewrite Hdis. simpl. rewrite Hdb. unfold bind, ret.
  now destruct (sql_select_recent_pending (ledger w)).
Qed.

(** A store that does not answer leaves the join unattributed. *)
Lemma attribution_fallback_db_error env old new w :
  increment_scan old new = None -> disappearance_scan old new = None ->
  db_ok env QRecentPending = false ->
  attribution env old new w = (Done None, logged w [Console ERROR MsgFallbackDbError]).
Proof.
  intros Hinc Hdis Hdb.
  unfold attribution, bind, console, emit, ret, try_catch, db_query.
  rewrite Hinc. simpl. rewrite Hdis. simpl. now rewrite Hdb.
Qed.

Lemma latest_created_some rows r :
  latest_created rows = Some r ->
  In r rows /\ forall r', In r' rows -> created_at r' <= created_at r.
Proof.
  revert r. induction rows as [|a rows IH]; simpl; [discriminate|].
  intros r. destruct (latest_created rows) as [r0|] eqn:Hrest.
  - destruct (IH r0 eq_refl) as [Hin Hmax].
    destruct (Z.gtb_spec (created_at r0) (created_at a)) as [Hgt|Hle]; intros [= <-].
    + split; [now right|]. intros r' [<-|Hr']; [lia|now apply Hmax].
    + split; [now left|]. intros r' [<-|Hr']; [lia|]. specialize (Hmax r' Hr'). lia.
  - intros [= <-]. split; [now left|].
    destruct rows as [|b rows]; [|simpl in Hrest; destruct (latest_created rows);
                                   [destruct (_ >? _)|]; discriminate].
    intros r' [<-|[]]. lia.
Qed.

Lemma latest_created_none rows : latest_created rows = None -> rows = [].
Proof.
  destruct rows as [|a rows]; [easy|]. simpl.
  destruct (latest_created rows); [destruct (_ >? _)|]; discriminate.
Qed.

Lemma is_pending_true r : is_pending r = true <-> status r = PENDING.
Proof. unfold is_pending. destruct (status r); simpl; split; congruence. Qed.

Lemma sql_select_recent_pending_some l r rest :
  sql_select_recent_pending l = r :: rest -> is_most_recent_pending l r.
Proof.
  unfold sql_select_recent_pending, is_most_recent_pending.
  destruct (latest_created (filter is_pending l)) as [r0|] eqn:H; [|discriminate].
  intros [= <- _]. apply latest_created_some in H as [Hin Hmax].
  apply filter_In in Hin as [Hin Hp]. apply is_pending_true in Hp.
  repeat split; [easy..|].
  intros r' Hr' Hp'. apply Hmax, filter_In. split; [easy|now apply is_pending_true].
Qed.

Lemma sql_select_recent_pending_nil l :
  sql_select_recent_pending l = [] <-> (forall r, In r l -> status r <> PENDING).
Proof.
  unfold sql_select_recent_pending.
  destruct (latest_created (filter is_pending l)) as [r0|] eqn:H.
  - split; [discriminate|]. intros Hno. apply latest_created_some in H as [Hin _].
    apply filter_In in Hin as [Hin Hp]. apply is_pending_true in Hp. now apply Hno in Hin.
  - split; [|easy]. intros _ r Hin Hp. apply latest_created_none in H.
    assert (Hf : In r (filter is_pending l))
      by (apply filter_In; split; [easy|now apply is_pending_true]).
    now rewrite H in Hf.
Qed.

(** No rise among the codes of both snapshots and no use of a code that
    only [new] holds: no count of [new] exceeds what the scan reads in
    [old]. *)
Lemma no_increase_of old new :
  (forall c, ~ increased_in_both old new c) -> new_only_unused old new ->
  no_increase old new.
Proof.
  intros Hboth Hnew c n Hn. destruct (JsMap.get old c) as [o|] eqn:Hold; simpl.
  - destruct (Z.le_gt_cases n o) as [Hle|Hgt]; [easy|].
    exfalso. apply (Hboth c). now exists o, n.
  - apply (Hnew c n); [|easy]. unfold JsMap.has. now rewrite Hold.
Qed.

(* ------------------------------------------------------------------ *)
(** ** The attribution engine *)

(** C1, as amended.  When exactly one code present in both snapshots has
    a greater use count in [new] than in [old], no code of [old] is
    missing from [new], and no code that only [new] holds has a positive
    use count, the attribution is that code (invite codes being non-empty
    strings). *)
Theorem C1_single_increase_attributed env old new c w :
  JsMap.wf new ->
  c <> "" ->
  (forall c', increased_in_both old new c' <-> c' = c) ->
  none_vanished old new ->
  new_only_unused old new ->
  attribution env old new w = (Done (Some c), logged w [Console LOG (MsgIncrement c)]).
Proof.
  intros Hwf Hc Huniq _ Hnew.
  apply attribution_increment; [|easy].
  destruct (increment_scan old new) as [c'|] eqn:Hscan.
  - f_equal. apply Huniq.
    apply increment_scan_some in Hscan as (inv & Hin & Hlt).
    apply (JsMapFacts.In_get _ _ _ Hwf) in Hin.
    assert (Hn : new_uses new c' = Some (nullish (inv_uses inv)))
      by (unfold new_uses; now rewrite Hin).
    destruct (JsMap.get old c') as [o|] eqn:Hold.
    + exists o, (nullish (inv_uses inv)). now repeat split.
    + apply JsMapFacts.has_false_get in Hold.
      specialize (Hnew _ _ Hold Hn). simpl in Hlt. lia.
  - exfalso. destruct (proj2 (Huniq c) eq_refl) as (o & n & Hold & Hn & Hlt).
    unfold new_uses in Hn. destruct (JsMap.get new c) as [inv|] eqn:Hget; [|discriminate].
    injection Hn as <-. apply JsMapFacts.get_In in Hget.
    pose proof (increment_scan_none _ _ Hscan _ _ Hget) as Hle.
    rewrite Hold in Hle. simpl in Hle. lia.
Qed.

(** C2, as amended.  When exactly one code of [old] is missing from
    [new], no code present in both snapshots has a greater use count in
    [new] than in [old], and no code that only [new] holds has a positive
    use count, the attribution is the missing code (invite codes being
    non-empty strings); and whenever the increment scan finds a code,
    that code is the attribution and the disappearance scan leaves no
    mark in the trace. *)
Theorem C2_vanished_code_attributed env old new w :
  JsMap.wf new ->
  (forall c, c <> "" ->
     (forall c', vanished old new c' <-> c' = c) ->
     (forall c', ~ increased_in_both old new c') ->
     new_only_unused old new ->
     increment_scan old new = None /\
     attribution env old new w = (Done (Some c), logged w [Console LOG (MsgVanished c)]))
  /\
  (forall c1, c1 <> "" ->
     increment_scan old new = Some c1 ->
     attribution env old new w = (Done (Some c1), logged w [Console LOG (MsgIncrement c1)])).
Proof.
  intros Hwf. split.
  - intros c Hc Huniq Hboth Hunused.
    pose proof (no_increase_of _ _ Hboth Hunused) as Hno.
    assert (Hinc : increment_scan old new = None).
    { destruct (increment_scan old new) as [c'|] eqn:Hscan; [exfalso|easy].
      apply increment_scan_some in Hscan as (inv & Hin & Hlt).
      apply (JsMapFacts.In_get _ _ _ Hwf) in Hin.
      specialize (Hno c' (nullish (inv_uses inv))). unfold new_uses in Hno.
      rewrite Hin in Hno. specialize (Hno eq_refl). lia. }
    split; [easy|]. apply attribution_vanished; [easy| |easy].
    destruct (disappearance_scan old new) as [c'|] eqn:Hscan.
    + f_equal. apply Huniq. now apply disappearance_scan_some.
    + exfalso. apply disappearance_scan_none in Hscan.
      destruct (proj2 (Huniq c) eq_refl) as [Hold Hnew].
      apply Hscan in Hold. congruence.
  - intros c1 Hc1 Hscan. now apply attribution_increment.
Qed.

(** C3.  When neither scan yields a code and the store answers the
    fallback query, the attribution is the code of a PENDING row whose
    creation time no PENDING row exceeds; it is empty when the ledger
    holds no PENDING row. *)
Theorem C3_ledger_fallback env old new w :
  increment_scan old new = None ->
  disappearance_scan old new = None ->
  db_ok env QRecentPending = true ->
  ((exists r, In r (ledger w) /\ status r = PENDING) ->
     exists r, is_most_recent_pending (ledger w) r /\
               attribution env old new w =
                 (Done (Some (invite_code r)),
                  logged w [Console LOG (MsgFallback (invite_code r))]))
  /\
  ((forall r, In r (ledger w) -> status r <> PENDING) ->
     attribution env old new w = (Done None, w)).
Proof.
  intros Hinc Hdis Hdb. rewrite (attribution_fallback _ _ _ _ Hinc Hdis Hdb).
  destruct (sql_select_recent_pending (ledger w)) as [|row rest] eqn:Hsel.
  - split; [|easy]. intros (r & Hin & Hp).
    now apply (proj1 (sql_select_recent_pending_nil _) Hsel) in Hin.
  - split.
    + intros _. exists row. split; [|easy]. now apply sql_select_recent_pending_some in Hsel.
    + intros Hno. apply sql_select_recent_pending_some in Hsel as (Hin & Hp & _).
      now apply Hno in Hin.
Qed.

(** C10.  A code that only [new] holds, with a positive use count and no
    earlier entry of [new] whose count rose, is found by step 1 (its
    cached count reads as 0) and is the attribution; the trace shows the
    increment scan alone. *)
Theorem C10_new_only_code_attributed env old pre c inv post w :
  c <> "" ->
  JsMap.get old c = None ->
  0 < nullish (inv_uses inv) ->
  (forall k i, In (k, i) pre -> nullish (inv_uses i) <= nullish (JsMap.get old k)) ->
  increment_scan old (pre ++ (c, inv) :: post) = Some c /\
  attribution env old (pre ++ (c, inv) :: post) w =
    (Done (Some c), logged w [Console LOG (MsgIncrement c)]).
Proof.
  intros Hc Hold Hpos Hpre.
  assert (Hscan : increment_scan old (pre ++ (c, inv) :: post) = Some c)
    by (apply increment_scan_first; [easy|now rewrite Hold]).
  split; [easy|]. now apply attribution_increment.
Qed.

(* ------------------------------------------------------------------ *)
(** ** The ledger and the role grantor *)

Ltac run_handler :=
  unfold asignarRolPorInvite, db_query, db_update_used, db_update_expired,
    db_insert, roles_add, from_option, console, emit, get_ledger, set_ledger,
    get_cache, set_cache, logged, try_catch, bind, ret, throw;
  simpl.

Lemma NoDup_map_inj {A B} (f : A -> B) l x y :
  NoDup (map f l) -> In x l -> In y l -> f x = f y -> x = y.
Proof.
  induction l as [|a l IH]; simpl; [easy|].
  intros Hnd Hx Hy Heq. inversion Hnd as [|? ? Hnotin Hnd']; subst.
  destruct Hx as [<-|Hx], Hy as [<-|Hy]; [easy| | |now apply IH].
  - exfalso. apply Hnotin. rewrite Heq. now apply in_map.
  - exfalso. apply Hnotin. rewrite <- Heq. now apply in_map.
Qed.

Lemma unique_codes_inj l r r' :
  unique_codes l -> In r l -> In r' l -> invite_code r = invite_code r' -> r = r'.
Proof. apply NoDup_map_inj. Qed.

Lemma filter_nil_of {A} (f : A -> bool) l :
  (forall x, In x l -> f x = false) -> filter f l = [].
Proof.
  intros H. destruct (filter f l) as [|x rest] eqn:Hf; [easy|].
  assert (Hin : In x (filter f l)) by (rewrite Hf; now left).
  apply filter_In in Hin as [Hin Hx]. rewrite (H _ Hin) in Hx. discriminate.
Qed.

Lemma select_pending_by_code_In l code row rest :
  sql_select_pending_by_code l code = row :: rest ->
  In row l /\ invite_code row = code /\ status row = PENDING.
Proof.
  intros H.
  assert (Hin : In row (sql_select_pending_by_code l code)) by (rewrite H; now left).
  apply filter_In in Hin as [Hin Hp]. apply andb_true_iff in Hp as [Hc Hp].
  apply String.eqb_eq in Hc. now apply is_pending_true in Hp.
Qed.

(** With unique codes, a code whose row is not PENDING selects nothing. *)
Lemma select_pending_by_code_stale l r :
  unique_codes l -> In r l -> status r <> PENDING ->
  sql_select_pending_by_code l (invite_code r) = [].
Proof.
  intros Hu Hin Hst. apply filter_nil_of. intros x Hx.
  destruct (String.eqb_spec (invite_code x) (invite_code r)) as [Heq|Hne]; [|easy].
  simpl. rewrite (unique_codes_inj _ _ _ Hu Hx Hin Heq).
  unfold is_pending. now destruct (status r).
Qed.

Lemma Forall2_map_same {A} (R : A -> A -> Prop) (f : A -> A) l :
  (forall x, In x l -> R x (f x)) -> Forall2 R l (map f l).
Proof.
  induction l as [|a l IH]; simpl; intros H; constructor.
  - apply H. now left.
  - apply IH. intros x Hx. apply H. now right.
Qed.

(** What a run of the grantor can leave in the ledger and in the role
    assignments: nothing new, or, after a PENDING row was selected, the
    role assignment alone or the assignment together with the UPDATE. *)
Lemma asignarRolPorInvite_effects env member code w :
  let w' := snd (asignarRolPorInvite env member code w) in
  fst (asignarRolPorInvite env member code w) = Done tt /\
  inviteCache w' = inviteCache w /\
  ((ledger w' = ledger w /\ memberRoles w' = memberRoles w)
   \/
   (exists row rest,
      sql_select_pending_by_code (ledger w) code = row :: rest /\
      memberRoles w' = memberRoles w ++ [(member_user_id member, role_id row)] /\
      (ledger w' = ledger w \/
       ledger w' = sql_update_used (ledger w) (now env) (member_user_id member) code))).
Proof.
  run_handler.
  destruct (db_ok env QPendingByCode); simpl; [|auto].
  destruct (sql_select_pending_by_code (ledger w) code) as [|row rest] eqn:Hsel; simpl; [auto|].
  destruct (JsMap.get (guild_roles env) (role_id row)) as [role|]; simpl; [|auto].
  destruct (bot_highest env) as [h|]; simpl; [|auto].
  destruct (position role >=? h); simpl; [auto|].
  destruct (roles_add_ok env); simpl; [|auto].
  destruct (db_ok env QUpdateUsed); simpl.
  - repeat split. right. exists row, rest. auto.
  - repeat split. right. exists row, rest. auto.
Qed.

(** C4, as amended.  For a run of the grantor that no other handler
    runs into between its SELECT and its UPDATE, and with unique invite
    codes: on the code of a row that is USED or EXPIRED when the run
    starts, the run changes neither the ledger (so neither the row's
    status, [used_at] nor [member_id]) nor the role assignments; and a
    row that differs after the run was PENDING when it started, carried
    the code, and is now its [mark_used] image.  The UPDATE itself
    carries no status condition: the guard is the SELECT. *)
Theorem C4_markUsed_only_from_pending env member code w :
  unique_codes (ledger w) ->
  (forall r, In r (ledger w) -> invite_code r = code ->
     status r = USED \/ status r = EXPIRED ->
     ledger (snd (asignarRolPorInvite env member code w)) = ledger w /\
     memberRoles (snd (asignarRolPorInvite env member code w)) = memberRoles w)
  /\
  Forall2 (fun r r' =>
             r' = r \/
             (status r = PENDING /\ invite_code r = code /\
              r' = mark_used (now env) (member_user_id member) r))
          (ledger w) (ledger (snd (asignarRolPorInvite env member code w))).
Proof.
  intros Hu.
  destruct (asignarRolPorInvite_effects env member code w) as (_ & _ & Heff).
  split.
  - intros r Hin Hcode Hst.
    assert (Hsel : sql_select_pending_by_code (ledger w) code = []).
    { rewrite <- Hcode. apply select_pending_by_code_stale; [easy..|].
      destruct Hst as [-> | ->]; discriminate. }
    destruct Heff as [Hsame|(row & rest & Hrow & _)]; [easy|congruence].
  - assert (Hrefl : forall l : Ledger,
               Forall2 (fun r r' =>
                          r' = r \/
                          (status r = PENDING /\ invite_code r = code /\
                           r' = mark_used (now env) (member_user_id member) r)) l l).
    { intros l. rewrite <- (map_id l) at 2. apply Forall2_map_same. now left. }
    destruct Heff as [[-> _]|(row & rest & Hrow & _ & [-> | ->])]; [apply Hrefl..|].
    apply select_pending_by_code_In in Hrow as (Hin & Hcode & Hp).
    apply Forall2_map_same. intros x Hx.
    destruct (String.eqb_spec (invite_code x) code) as [Heq|Hne]; [right|now left].
    rewrite (unique_codes_inj _ _ _ Hu Hx Hin) by congruence. now rewrite Hcode.
Qed.

(** C5.  When the row selected for the code names a role that the guild
    lacks, or a role whose position is at or above the bot's highest one,
    the grantor completes without granting a role and without touching
    the ledger, in which the row stays PENDING; when the store answered
    the SELECT, all it adds to the trace after its opening log line is
    one warning. *)
Theorem C5_refused_grant_is_inert env member code w row rest :
  sql_select_pending_by_code (ledger w) code = row :: rest ->
  (JsMap.get (guild_roles env) (role_id row) = None \/
   exists role h, JsMap.get (guild_roles env) (role_id row) = Some role /\
                  bot_highest env = Some h /\ position role >= h) ->
  let w' := snd (asignarRolPorInvite env member code w) in
  fst (asignarRolPorInvite env member code w) = Done tt /\
  memberRoles w' = memberRoles w /\
  ledger w' = ledger w /\
  In row (ledger w') /\ status row = PENDING /\
  (db_ok env QPendingByCode = true ->
   exists m, w' = logged w [Console LOG (MsgTrying (member_tag member) code); Console WARN m]).
Proof.
  intros Hsel Hrole.
  destruct (select_pending_by_code_In _ _ _ _ Hsel) as (Hin & _ & Hp).
  run_handler.
  destruct (db_ok env QPendingByCode); simpl; [|repeat split; easy].
  rewrite Hsel. simpl.
  destruct Hrole as [-> | (role & h & -> & -> & Hge)]; simpl.
  - repeat split; [easy..|]. intros _. eexists. rewrite <- app_assoc. reflexivity.
  - destruct (Z.geb_spec (position role) h) as [_|Hlt]; [|lia]. simpl.
    repeat split; [easy..|]. intros _. eexists. rewrite <- app_assoc. reflexivity.
Qed.

(** C6.  On the path where a PENDING row is selected, its role exists
    below the bot's highest position and [member.roles.add] resolves: if
    the UPDATE is answered, the trace shows the role assignment before
    the ledger write; if the UPDATE fails, the role stays assigned, the
    ledger is unchanged with the row still PENDING, and the handler
    completes after logging the error. *)
Theorem C6_grant_precedes_ledger_write env member code w row rest role h :
  db_ok env QPendingByCode = true ->
  sql_select_pending_by_code (ledger w) code = row :: rest ->
  JsMap.get (guild_roles env) (role_id row) = Some role ->
  bot_highest env = Some h ->
  position role < h ->
  roles_add_ok env = true ->
  (db_ok env QUpdateUsed = true ->
   asignarRolPorInvite env member code w =
     (Done tt,
      {| inviteCache := inviteCache w;
         ledger := sql_update_used (ledger w) (now env) (member_user_id member) code;
         memberRoles := memberRoles w ++ [(member_user_id member, role_id row)];
         trace := trace w ++
                  [Console LOG (MsgTrying (member_tag member) code);
                   RolesAdd (member_user_id member) (role_id row);
                   Console LOG (MsgRoleAssigned (role_name role) (member_tag member) (email row));
                   DbUpdateUsed code (member_user_id member) (now env);
                   Console LOG (MsgMarkedUsed code)] |}))
  /\
  (db_ok env QUpdateUsed = false ->
   asignarRolPorInvite env member code w =
     (Done tt,
      {| inviteCache := inviteCache w;
         ledger := ledger w;
         memberRoles := memberRoles w ++ [(member_user_id member, role_id row)];
         trace := trace w ++
                  [Console LOG (MsgTrying (member_tag member) code);
                   RolesAdd (member_user_id member) (role_id row);
                   Console LOG (MsgRoleAssigned (role_name role) (member_tag member) (email row));
                   Console ERROR (MsgGrantError (member_tag member) code)] |})
   /\ In row (ledger w) /\ status row = PENDING).
Proof.
  intros Hdb Hsel Hrole Hbot Hlt Hadd.
  destruct (select_pending_by_code_In _ _ _ _ Hsel) as (Hin & _ & Hp).
  split; intros Hupd; [|split; [|easy]].
  all: run_handler; rewrite Hdb; simpl; rewrite Hsel; simpl; rewrite Hrole, Hbot; simpl.
  all: destruct (Z.geb_spec (position role) h) as [Hge|_]; [lia|]; simpl.
  all: rewrite Hadd, Hupd; simpl; rewrite <- !app_assoc; reflexivity.
Qed.

(* ------------------------------------------------------------------ *)
(** ** Issuance *)

Lemma NoDup_snoc {A} (l : list A) x : NoDup l -> ~ In x l -> NoDup (l ++ [x]).
Proof.
  induction l as [|a l IH]; simpl; intros Hnd Hx.
  - constructor; [easy|constructor].
  - inversion Hnd as [|? ? Hnotin Hnd']; subst. constructor.
    + rewrite in_app_iff. simpl. intuition congruence.
    + apply IH; intuition.
Qed.

Lemma pending_emails_In l e :
  In e (pending_emails l) <-> exists r, In r l /\ status r = PENDING /\ email r = e.
Proof.
  unfold pending_emails. rewrite in_map_iff. split.
  - intros (r & He & Hin). apply filter_In in Hin as [Hin Hp].
    exists r. repeat split; [easy|now apply is_pending_true|easy].
  - intros (r & Hin & Hp & He). exists r. split; [easy|].
    apply filter_In. split; [easy|now apply is_pending_true].
Qed.

Lemma select_pending_by_email_In l e r :
  In r (sql_select_pending_by_email l e) <-> In r l /\ email r = e /\ status r = PENDING.
Proof.
  unfold sql_select_pending_by_email. rewrite filter_In, andb_true_iff.
  rewrite String.eqb_eq, is_pending_true. tauto.
Qed.

Lemma pending_emails_snoc l r :
  status r = PENDING -> pending_emails (l ++ [r]) = pending_emails l ++ [email r].
Proof.
  intros Hp. unfold pending_emails. rewrite filter_app, map_app. simpl.
  now apply is_pending_true in Hp as ->.
Qed.

Section Update.
(** Both UPDATE statements rewrite the rows of one code with a function
    that keeps the code and leaves the row not PENDING. *)
Variable g : InviteRecord -> InviteRecord.
Hypothesis g_code : forall r, invite_code (g r) = invite_code r.
Hypothesis g_not_pending : forall r, status (g r) <> PENDING.

Lemma In_update_rows l c r' :
  In r' (sql_update g l c) -> status r' = PENDING -> In r' l /\ invite_code r' <> c.
Proof.
  unfold sql_update. rewrite in_map_iff. intros (r & Hr & Hin) Hp.
  destruct (String.eqb_spec (invite_code r) c) as [Heq|Hne]; subst r'; [|easy].
  now apply g_not_pending in Hp.
Qed.

Lemma codes_update_rows l c : codes (sql_update g l c) = codes l.
Proof.
  unfold codes, sql_update. rewrite map_map. apply map_ext.
  intros r. now destruct (String.eqb (invite_code r) c).
Qed.

(** Rewriting rows to a status other than PENDING cannot create a second
    PENDING row for an email. *)
Lemma one_pending_update_rows l c :
  one_pending_per_email l -> one_pending_per_email (sql_update g l c).
Proof.
  unfold one_pending_per_email.
  induction l as [|a l IH]; simpl; [easy|].
  unfold pending_emails in *. simpl.
  destruct (String.eqb (invite_code a) c); simpl.
  - assert (Hg : is_pending (g a) = false).
    { destruct (is_pending (g a)) eqn:Hp; [|easy].
      apply is_pending_true in Hp. now apply g_not_pending in Hp. }
    rewrite Hg.
    destruct (is_pending a); simpl; intros Hnd; apply IH; [now inversion Hnd|easy].
  - destruct (is_pending a); simpl; intros Hnd; [|now apply IH].
    inversion Hnd as [|? ? Hnotin Hnd']; subst. constructor; [|now apply IH].
    intros Hin. apply Hnotin.
    apply (pending_emails_In (sql_update g l c)) in Hin as (r & Hr & Hp & He).
    apply In_update_rows in Hr as [Hr _]; [|easy].
    apply (pending_emails_In l). now exists r.
Qed.
End Update.

Lemma In_update_expired l c r' :
  In r' (sql_update_expired l c) -> status r' = PENDING ->
  In r' l /\ invite_code r' <> c.
Proof. now apply (In_update_rows mark_expired). Qed.

Lemma codes_update_expired l c : codes (sql_update_expired l c) = codes l.
Proof. now apply (codes_update_rows mark_expired). Qed.

Lemma one_pending_update_expired l c :
  one_pending_per_email l -> one_pending_per_email (sql_update_expired l c).
Proof. now apply (one_pending_update_rows mark_expired). Qed.

Lemma codes_update_used l t m c : codes (sql_update_used l t m c) = codes l.
Proof. now apply (codes_update_rows (mark_used t m)). Qed.

Lemma one_pending_update_used l t m c :
  one_pending_per_email l -> one_pending_per_email (sql_update_used l t m c).
Proof. now apply (one_pending_update_rows (mark_used t m)). Qed.

(** After the selected PENDING row of an email was marked EXPIRED, no
    PENDING row is left for that email. *)
Lemma update_expired_clears_email l e existing rest :
  one_pending_per_email l ->
  sql_select_pending_by_email l e = existing :: rest ->
  ~ In e (pending_emails (sql_update_expired l (invite_code existing))).
Proof.
  intros Hone Hsel Hin.
  apply pending_emails_In in Hin as (r & Hr & Hp & He).
  apply In_update_expired in Hr as [Hr Hne]; [|easy].
  assert (Hex : In existing (sql_select_pending_by_email l e)) by (rewrite Hsel; now left).
  apply select_pending_by_email_In in Hex as (Hex & Hemail & Hpex).
  apply Hne. f_equal.
  apply (NoDup_map_inj email (filter is_pending l)); [easy| | |congruence].
  all: apply filter_In; split; [easy|now apply is_pending_true].
Qed.

Lemma sql_insert_some l r l' :
  sql_insert l r = Some l' -> l' = l ++ [r] /\ ~ In (invite_code r) (codes l).
Proof.
  unfold sql_insert. destruct (existsb _ _) eqn:Hex; [discriminate|].
  intros [= <-]. split; [easy|]. intros Hin.
  assert (Htrue : existsb (String.eqb (invite_code r)) (codes l) = true)
    by (apply existsb_exists; exists (invite_code r); split; [easy|apply String.eqb_refl]).
  congruence.
Qed.

(** The ledgers a run of the route can leave behind. *)
Lemma generate_invite_ledger env req w :
  let l := ledger w in
  let mail := string_of (req_email req) in
  let l' := ledger (snd (generate_invite env req w)) in
  l' = l \/
  (exists r, sql_select_pending_by_email l mail = [] /\
             l' = l ++ [r] /\ email r = mail /\ status r = PENDING /\
             ~ In (invite_code r) (codes l)) \/
  (exists existing rest,
      sql_select_pending_by_email l mail = existing :: rest /\
      expiresAt_of env existing <= now env /\
      (l' = sql_update_expired l (invite_code existing) \/
       exists r, l' = sql_update_expired l (invite_code existing) ++ [r] /\
                 email r = mail /\ status r = PENDING /\
                 ~ In (invite_code r) (codes l))).
Proof.
  unfold generate_invite.
  destruct (negb (truthy (req_email req)) || negb (truthy (req_roleId req))); [now left|].
  run_handler.
  destruct (db_ok env QPendingByEmail); simpl; [|now left].
  destruct (sql_select_pending_by_email (ledger w) (string_of (req_email req)))
    as [|existing rest] eqn:Hsel; simpl.
  - destruct (guild_cached env); simpl; [|now left].
    destruct (channel_ok env); simpl; [|now left].
    destruct (created_invite env) as [invite|]; simpl; [|now left].
    destruct (db_ok env QInsert); simpl; [|now left].
    match goal with
    | |- context [sql_insert ?l0 ?r0] =>
        destruct (sql_insert l0 r0) as [l1|] eqn:Hins; simpl; [|now left];
        apply sql_insert_some in Hins as [Hl Hfresh]; right; left; exists r0
    end.
    repeat split; [|exact Hfresh]. now destruct (mail_outcome env).
  - destruct (Z.ltb_spec (now env) (expiresAt_of env existing)) as [Hlt|Hge]; simpl.
    + left. now destruct (mail_outcome env).
    + destruct (db_ok env QUpdateExpired); simpl; [|now left].
      right. right. exists existing, rest. split; [easy|]. split; [easy|].
      destruct (guild_cached env); simpl; [|now left].
      destruct (channel_ok env); simpl; [|now left].
      destruct (created_invite env) as [invite|]; simpl; [|now left].
      destruct (db_ok env QInsert); simpl; [|now left].
      match goal with
      | |- context [sql_insert ?l0 ?r0] =>
          destruct (sql_insert l0 r0) as [l1|] eqn:Hins; simpl; [|now left];
          apply sql_insert_some in Hins as [Hl Hfresh]; right; exists r0
      end.
      rewrite codes_update_expired in Hfresh.
      repeat split; [|exact Hfresh]. now destruct (mail_outcome env).
Qed.

Lemma existsb_eqb_false c l : ~ In c l -> existsb (String.eqb c) l = false.
Proof.
  intros Hnot. destruct (existsb (String.eqb c) l) eqn:H; [exfalso|easy].
  apply existsb_exists in H as (x & Hx & Heq). apply String.eqb_eq in Heq. now subst.
Qed.

Lemma generate_invite_preserves_one_pending env req w :
  one_pending_per_email (ledger w) ->
  one_pending_per_email (ledger (snd (generate_invite env req w))).
Proof.
  intros Hone.
  destruct (generate_invite_ledger env req w)
    as [-> | [(r & Hsel & -> & He & Hp & _)
             | (ex & rest & Hsel & _ & [-> | (r & -> & He & Hp & _)])]].
  - easy.
  - unfold one_pending_per_email. rewrite pending_emails_snoc by easy.
    apply NoDup_snoc; [easy|]. rewrite He. intros Hin.
    apply pending_emails_In in Hin as (r0 & Hr0 & Hp0 & He0).
    assert (Hin : In r0 (sql_select_pending_by_email (ledger w) (string_of (req_email req))))
      by now apply select_pending_by_email_In.
    now rewrite Hsel in Hin.
  - now apply one_pending_update_expired.
  - unfold one_pending_per_email. rewrite pending_emails_snoc by easy.
    apply NoDup_snoc; [now apply one_pending_update_expired|].
    rewrite He. now apply update_expired_clears_email with (rest := rest).
Qed.

(** C7, as amended.  For an issuance request handled without another
    request running between its SELECT and its INSERT: a ledger with at
    most one PENDING row per email still has at most one after the
    request.  When the PENDING row of the
    email has not reached its expiry instant, the ledger is left as it
    is.  When it has, no row is inserted unless the row was marked
    EXPIRED first: a failed EXPIRED update leaves the ledger unchanged,
    and when every external call succeeds the trace shows the EXPIRED
    update before the INSERT of the new PENDING row of that email, whose
    stored expiry is creation time plus the configured time-to-live, the
    instant the route compares against. *)
Theorem C7_issuance_keeps_one_pending_per_email env req w :
  one_pending_per_email (ledger w) ->
  let mail := string_of (req_email req) in
  let roleId := string_of (req_roleId req) in
  let w' := snd (generate_invite env req w) in
  one_pending_per_email (ledger w')
  /\
  (forall existing rest,
     sql_select_pending_by_email (ledger w) mail = existing :: rest ->
     now env < expiresAt_of env existing ->
     ledger w' = ledger w)
  /\
  (forall existing rest,
     sql_select_pending_by_email (ledger w) mail = existing :: rest ->
     expiresAt_of env existing <= now env ->
     (db_ok env QUpdateExpired = false -> ledger w' = ledger w)
     /\
     (forall invite,
        truthy (req_email req) = true -> truthy (req_roleId req) = true ->
        db_ok env QPendingByEmail = true -> db_ok env QUpdateExpired = true ->
        db_ok env QInsert = true ->
        guild_cached env = true -> channel_ok env = true ->
        created_invite env = Some invite ->
        ~ In (ci_code invite) (codes (ledger w)) ->
        let r := new_record (ci_code invite) roleId mail (now_create env)
                   (now_create env + inviteTTLSeconds env * 1000) in
        ledger w' = sql_update_expired (ledger w) (invite_code existing) ++ [r] /\
        In (mark_expired existing) (ledger w') /\
        expires_at r = expiresAt_of env r /\
        exists tail,
          trace w' = trace w ++
            [Console LOG (MsgExpiredPending mail (invite_code existing));
             DbUpdateExpired (invite_code existing);
             Console LOG MsgGuildFound;
             InviteIssued (ci_code invite);
             Console LOG (MsgInviteIssued (ci_code invite));
             DbInsert r] ++ tail)).
Proof.
  intros Hone mail roleId w'.
  split; [now apply generate_invite_preserves_one_pending|]. split.
  - intros existing rest Hsel Hlt. subst w'. unfold generate_invite.
    destruct (negb (truthy (req_email req)) || negb (truthy (req_roleId req))); [easy|].
    run_handler. destruct (db_ok env QPendingByEmail); simpl; [|easy].
    fold mail. rewrite Hsel. simpl.
    destruct (Z.ltb_spec (now env) (expiresAt_of env existing)) as [_|Hge]; [|lia].
    simpl. now destruct (mail_outcome env).
  - intros existing rest Hsel Hge. split.
    + intros Hupd. subst w'. unfold generate_invite.
      destruct (negb (truthy (req_email req)) || negb (truthy (req_roleId req))); [easy|].
      run_handler. destruct (db_ok env QPendingByEmail); simpl; [|easy].
      fold mail. rewrite Hsel. simpl.
      destruct (Z.ltb_spec (now env) (expiresAt_of env existing)) as [Hlt|_]; [lia|].
      simpl. now rewrite Hupd.
    + intros invite Hmail Hrole Hq Hupd Hins Hguild Hchan Hinv Hfresh r.
      assert (Hex : In existing (ledger w)).
      { assert (Hin : In existing (sql_select_pending_by_email (ledger w) mail))
          by (rewrite Hsel; now left).
        now apply select_pending_by_email_In in Hin. }
      assert (Hl : ledger w' = sql_update_expired (ledger w) (invite_code existing) ++ [r]
                   /\ exists tail,
                        trace w' = trace w ++
                          [Console LOG (MsgExpiredPending mail (invite_code existing));
                           DbUpdateExpired (invite_code existing);
                           Console LOG MsgGuildFound;
                           InviteIssued (ci_code invite);
                           Console LOG (MsgInviteIssued (ci_code invite));
                           DbInsert r] ++ tail).
      { subst w'. unfold generate_invite. rewrite Hmail, Hrole. simpl.
        run_handler. rewrite Hq. simpl. fold mail. rewrite Hsel. simpl.
        destruct (Z.ltb_spec (now env) (expiresAt_of env existing)) as [Hlt|_]; [lia|].
        simpl. rewrite Hupd. simpl. rewrite Hguild, Hchan. simpl. rewrite Hinv. simpl.
        rewrite Hins. simpl. unfold sql_insert. simpl.
        rewrite codes_update_expired, (existsb_eqb_false _ _ Hfresh). simpl.
        fold roleId. fold r.
        destruct (mail_outcome env); simpl; (split; [reflexivity|]);
          eexists; rewrite <- !app_assoc; simpl; reflexivity. }
      destruct Hl as [Hl Htr]. split; [easy|]. split; [|split; [reflexivity|easy]].
      rewrite Hl. apply in_app_iff. left. unfold sql_update_expired.
      apply in_map_iff. exists existing. now rewrite String.eqb_refl.
Qed.

(* ------------------------------------------------------------------ *)
(** ** The invite cache *)

Lemma logged_nil w : logged w [] = w.
Proof. unfold logged. rewrite app_nil_r. now destruct w. Qed.

Lemma logged_logged w evs evs' : logged (logged w evs) evs' = logged w (evs ++ evs').
Proof. unfold logged. simpl. now rewrite app_assoc. Qed.

Lemma appends_ret {A} (a : A) : appends_only (ret a).
Proof. intros w. exists a, []. now rewrite logged_nil. Qed.

Lemma appends_console lvl m : appends_only (console lvl m).
Proof. intros w. now exists tt, [Console lvl m]. Qed.

Lemma appends_bind {A B} (m : M A) (k : A -> M B) :
  appends_only m -> (forall a, appends_only (k a)) -> appends_only (bind m k).
Proof.
  intros Hm Hk w. unfold bind. destruct (Hm w) as (a & evs & ->).
  destruct (Hk a (logged w evs)) as (b & evs' & ->).
  exists b, (evs ++ evs'). now rewrite logged_logged.
Qed.

Lemma appends_try_query {A B} env c (q : Ledger -> A) (k : A -> M B) (h : Exn -> M B) :
  (forall rows, appends_only (k rows)) -> (forall e, appends_only (h e)) ->
  appends_only (try_catch (bind (db_query env c q) k) h).
Proof.
  intros Hk Hh w. unfold try_catch, bind, db_query, get_ledger, ret, throw.
  destruct (db_ok env c); simpl.
  - destruct (Hk (q (ledger w)) w) as (b & evs & Hrun). rewrite Hrun. now exists b, evs.
  - apply Hh.
Qed.

(** The attribution engine never throws and only appends to the trace. *)
Lemma attribution_done env old new : appends_only (attribution env old new).
Proof.
  unfold attribution.
  apply appends_bind.
  { destruct (increment_scan old new);
      [apply appends_bind; [apply appends_console|intros; apply appends_ret]
      |apply appends_ret]. }
  intros u1. apply appends_bind.
  { destruct (negb (truthy u1)); [|apply appends_ret].
    destruct (disappearance_scan old new);
      [apply appends_bind; [apply appends_console|intros; apply appends_ret]
      |apply appends_ret]. }
  intros u2. destruct (negb (truthy u2)); [|apply appends_ret].
  apply appends_try_query.
  - intros [|row rows]; [apply appends_ret|].
    apply appends_bind; [apply appends_console|intros; apply appends_ret].
  - intros e. apply appends_bind; [apply appends_console|intros; apply appends_ret].
Qed.

(** The join handler, once the invite list was fetched and the
    attribution [u] computed with the events [evs]. *)
Lemma guildMemberAdd_run env member w coll u evs :
  fetched_invites env = Some coll ->
  let g := member_guild member in
  attribution env (snapshot (inviteCache w) g) coll w = (Done u, logged w evs) ->
  guildMemberAdd env member w =
    let w2 := logged {| inviteCache := JsMap.set (inviteCache w) g (snapshot_of coll);
                        ledger := ledger w; memberRoles := memberRoles w;
                        trace := trace w ++ evs |}
                [Console LOG (MsgCacheBefore (snapshot (inviteCache w) g));
                 Console LOG (MsgInvitesAfter coll)] in
    if negb (truthy u) then
      (Done tt, logged w2 [Console LOG (MsgUntrackable (member_tag member))])
    else if member_pending member then
      (Done tt,
       logged w2 [Console LOG (MsgJoinedWith (member_tag member) (string_of u));
                  Console LOG (MsgScreening (member_tag member))])
    else
      asignarRolPorInvite env member (string_of u)
        (logged w2 [Console LOG (MsgJoinedWith (member_tag member) (string_of u))]).
Proof.
  intros Hfetch g Hattr.
  unfold guildMemberAdd, bind at 1, get_cache. rewrite Hfetch.
  unfold from_option, bind at 1, ret at 1. fold g. unfold bind at 1. rewrite Hattr.
  unfold bind, get_cache, set_cache, console, emit, ret, logged. simpl.
  destruct (truthy u); simpl; [|now rewrite <- !app_assoc].
  destruct (member_pending member); simpl; now rewrite <- !app_assoc.
Qed.

(** What the scans read in the fetched collection is what the refreshed
    cache holds. *)
Lemma snapshot_of_get coll c :
  JsMap.wf coll -> keyed_by_code coll ->
  JsMap.get (snapshot_of coll) c = new_uses coll c.
Proof.
  unfold snapshot_of, JsMap.wf, JsMap.keys, keyed_by_code.
  assert (Hgen : forall m : Snapshot,
             NoDup (map fst coll) ->
             (forall k i, In (k, i) coll -> inv_code i = k) ->
             JsMap.get (fold_left
                          (fun m kv => JsMap.set m (inv_code (snd kv))
                                         (nullish (inv_uses (snd kv)))) coll m) c
             = match new_uses coll c with
               | Some n => Some n
               | None => JsMap.get m c
               end).
  { induction coll as [|[k i] coll IH]; intros m Hnd Hkey; [easy|].
    simpl in *. inversion Hnd as [|? ? Hnotin Hnd']; subst.
    rewrite IH by (try easy; intros k' i' Hin; apply Hkey; now right).
    rewrite (Hkey k i) by now left.
    unfold new_uses. simpl.
    destruct (String.eqb_spec k c) as [->|Hne].
    - destruct (JsMap.get coll c) as [i'|] eqn:Hget.
      + exfalso. apply Hnotin. apply JsMapFacts.get_In in Hget.
        now apply (in_map fst) in Hget.
      + apply JsMapFacts.get_set_same.
    - destruct (JsMap.get coll c); [easy|].
      apply JsMapFacts.get_set_other. congruence. }
  intros Hnd Hkey. rewrite (Hgen JsMap.empty Hnd Hkey).
  now destruct (new_uses coll c).
Qed.

(** C8.  Whenever the join handler obtained the fresh invite list, its
    run completes with the guild's cached snapshot equal to the snapshot
    of that list: when no code was attributed (the run ends on the
    "untrackable" log line), when the member is gated (it ends on the
    "screening" line), and when the grantor was called. *)
Theorem C8_join_resynchronises_cache env member w coll :
  fetched_invites env = Some coll ->
  let g := member_guild member in
  let w' := snd (guildMemberAdd env member w) in
  fst (guildMemberAdd env member w) = Done tt /\
  JsMap.get (inviteCache w') g = Some (snapshot_of coll) /\
  snapshot (inviteCache w') g = snapshot_of coll /\
  exists u w1,
    attribution env (snapshot (inviteCache w) g) coll w = (Done u, w1) /\
    let w2 := logged {| inviteCache := JsMap.set (inviteCache w) g (snapshot_of coll);
                        ledger := ledger w1; memberRoles := memberRoles w1;
                        trace := trace w1 |}
                [Console LOG (MsgCacheBefore (snapshot (inviteCache w) g));
                 Console LOG (MsgInvitesAfter coll)] in
    ((truthy u = false /\
      w' = logged w2 [Console LOG (MsgUntrackable (member_tag member))])
     \/
     (truthy u = true /\ member_pending member = true /\
      w' = logged w2 [Console LOG (MsgJoinedWith (member_tag member) (string_of u));
                      Console LOG (MsgScreening (member_tag member))])
     \/
     (truthy u = true /\ member_pending member = false /\
      w' = snd (asignarRolPorInvite env member (string_of u)
                  (logged w2 [Console LOG (MsgJoinedWith (member_tag member) (string_of u))])))).
Proof.
  intros Hfetch g w'.
  destruct (attribution_done env (snapshot (inviteCache w) g) coll w) as (u & evs & Hattr).
  assert (Hget : forall c : JsMap.t Snapshot,
             JsMap.get (JsMap.set c g (snapshot_of coll)) g = Some (snapshot_of coll))
    by (intros c; apply JsMapFacts.get_set_same).
  pose proof (guildMemberAdd_run env member w coll u evs Hfetch Hattr) as Hrun.
  subst w'. rewrite Hrun. cbv zeta.
  destruct (truthy u) eqn:Hu; simpl.
  - destruct (member_pending member) eqn:Hpend; simpl.
    + repeat split; [apply Hget|unfold snapshot; now rewrite Hget|].
      exists u. eexists. split; [exact Hattr|]. right. left. now repeat split.
    + match goal with
      | |- context [asignarRolPorInvite env member ?c ?w0] =>
          destruct (asignarRolPorInvite_effects env member c w0) as (Hdone & Hcache & _)
      end.
      split; [exact Hdone|]. rewrite Hcache. simpl.
      repeat split; [apply Hget|unfold snapshot; now rewrite Hget|].
      exists u. eexists. split; [exact Hattr|]. right. right. now repeat split.
  - repeat split; [apply Hget|unfold snapshot; now rewrite Hget|].
    exists u. eexists. split; [exact Hattr|]. left. now repeat split.
Qed.

(** C9.  When either fetch of [populateGuildInvites] is rejected, the
    call completes normally, logs the error, and leaves the cache as it
    was: the guild keeps its prior snapshot, or the empty one if it had
    none. *)
Theorem C9_failed_populate_keeps_snapshot env guildId w :
  fetched_guild env = None \/ fetched_invites env = None ->
  populateGuildInvites env guildId w =
    (Done tt, logged w [Console ERROR (MsgPopulateError guildId)]) /\
  let w' := snd (populateGuildInvites env guildId w) in
  inviteCache w' = inviteCache w /\
  snapshot (inviteCache w') guildId = snapshot (inviteCache w) guildId /\
  (JsMap.get (inviteCache w) guildId = None ->
   snapshot (inviteCache w') guildId = JsMap.empty).
Proof.
  intros Hfail.
  assert (Hrun : populateGuildInvites env guildId w =
                 (Done tt, logged w [Console ERROR (MsgPopulateError guildId)])).
  { unfold populateGuildInvites. run_handler.
    destruct Hfail as [-> | ->]; [easy|]. now destruct (fetched_guild env). }
  split; [exact Hrun|]. rewrite Hrun. simpl.
  repeat split. intros Hnone. unfold snapshot. now rewrite Hnone.
Qed.

(* ------------------------------------------------------------------ *)
(** ** Reachable worlds *)

(** What one handler run can do to the ledger. *)
Lemma handler_run_ledger w w' :
  handler_run w w' ->
  ledger w' = ledger w \/
  (exists t m c, ledger w' = sql_update_used (ledger w) t m c) \/
  (exists env req, ledger w' = ledger (snd (generate_invite env req w))).
Proof.
  intros [env guildId w0|gId code uses w0|gId code w0|env member w0
         |env oldPending newMember w0|env req w0].
  - left. unfold populateGuildInvites. run_handler.
    destruct (fetched_guild env); simpl; [|easy].
    now destruct (fetched_invites env).
  - left. unfold inviteCreate.
    destruct (negb (truthy gId) || negb (truthy code)); [easy|]. run_handler.
    now destruct (negb (JsMap.has (inviteCache w0) (string_of gId))).
  - left. unfold inviteDelete.
    destruct (negb (truthy gId) || negb (truthy code)); [easy|]. run_handler.
    now destruct (JsMap.get (inviteCache w0) (string_of gId)).
  - destruct (fetched_invites env) as [coll|] eqn:Hfetch.
    + destruct (attribution_done env (snapshot (inviteCache w0) (member_guild member)) coll w0)
        as (u & evs & Hattr).
      rewrite (guildMemberAdd_run env member w0 coll u evs Hfetch Hattr). cbv zeta.
      destruct (negb (truthy u)); [now left|].
      destruct (member_pending member); [now left|].
      match goal with
      | |- context [asignarRolPorInvite env member ?c ?w1] =>
          destruct (asignarRolPorInvite_effects env member c w1)
            as (_ & _ & [[Hl _]|(row & rest & _ & _ & [Hl|Hl])])
      end; rewrite Hl; simpl; [now left|now left|].
      right. left. now exists (now env), (member_user_id member), (string_of u).
    + left. unfold guildMemberAdd, bind, get_cache, from_option. now rewrite Hfetch.
  - unfold guildMemberUpdate.
    destruct (oldPending && negb (member_pending newMember)); [|now left].
    unfold try_catch, bind, db_query, console, emit, get_ledger, ret, throw.
    destruct (db_ok env QLatestForMember); simpl; [|now left].
    destruct (screening_rows env) as [|code rows]; simpl; [now left|].
    match goal with
    | |- context [asignarRolPorInvite env newMember ?c ?w1] =>
        destruct (asignarRolPorInvite_effects env newMember c w1)
          as (Hdone & _ & [[Hl _]|(row & rest & _ & _ & [Hl|Hl])]);
        destruct (asignarRolPorInvite env newMember c w1) as [res w2]
    end; simpl in *; subst res; simpl; rewrite Hl; [now left|now left|].
    right. left. now exists (now env), (member_user_id newMember), code.
  - right. right. now exists env, req.
Qed.

Lemma generate_invite_preserves_unique_codes env req w :
  unique_codes (ledger w) -> unique_codes (ledger (snd (generate_invite env req w))).
Proof.
  intros Hu. unfold unique_codes in *.
  destruct (generate_invite_ledger env req w)
    as [-> | [(r & _ & -> & _ & _ & Hfresh)
             | (ex & rest & _ & _ & [-> | (r & -> & _ & _ & Hfresh)])]].
  - easy.
  - unfold codes in *. rewrite map_app. now apply NoDup_snoc.
  - now rewrite codes_update_expired.
  - unfold codes in *. rewrite map_app. fold (codes (sql_update_expired (ledger w) (invite_code ex))).
    rewrite codes_update_expired. now apply NoDup_snoc.
Qed.

Lemma handler_run_invariant w w' :
  handler_run w w' -> ledger_invariant (ledger w) -> ledger_invariant (ledger w').
Proof.
  intros Hrun [Hu Hone].
  destruct (handler_run_ledger _ _ Hrun) as [-> | [(t & m & c & ->) | (env & req & ->)]].
  - now split.
  - split; [unfold unique_codes; now rewrite codes_update_used
           |now apply one_pending_update_used].
  - split; [now apply generate_invite_preserves_unique_codes
           |now apply generate_invite_preserves_one_pending].
Qed.

(** Started on an empty table, the handlers keep invite codes unique and
    at most one PENDING row per email. *)
Lemma reachable_ledger_invariant w : reachable w -> ledger_invariant (ledger w).
Proof.
  induction 1 as [|w w' _ IH Hrun].
  - split; constructor.
  - now apply (handler_run_invariant w).
Qed.

(** The UPDATE that marks a row USED carries no status condition: sent
    for the code of a USED row it would restamp that row.  The grantor
    sends it only after its PENDING-filtered SELECT returned a row. *)
Example sql_update_used_unguarded :
  sql_update_used [Sample.used "USED01" "R1" "c@x.com" 20 25 "u0"] 40 "u1" "USED01"
  = [Sample.used "USED01" "R1" "c@x.com" 20 40 "u1"].
Proof. reflexivity. Qed.

(* ------------------------------------------------------------------ *)
(** ** The scenarios, checked against the theorems *)

#[local] Arguments String.eqb : simpl never.

Ltac by_keys :=
  repeat match goal with
         | H : context [String.eqb ?a ?b] |- _ =>
             destruct (String.eqb_spec a b); simpl in H
         | |- context [String.eqb ?a ?b] =>
             destruct (String.eqb_spec a b); simpl
         end;
  subst; try discriminate;
  repeat match goal with
         | H : Some _ = Some _ |- _ => injection H as H; subst
         end;
  try congruence; try lia; try (exfalso; lia); auto.

Ltac distinct_keys :=
  unfold JsMap.wf, unique_codes, one_pending_per_email; simpl;
  repeat constructor; simpl; intuition discriminate.

(** The example scenarios of the specification, run on the embedding. *)
Example scenario_a :
  fst (attribution (Sample.env 0 [] 0 []) [("ABC123", 0)]
         [("ABC123", Sample.inv "ABC123" 1)] (Sample.world [] []))
  = Done (Some "ABC123").
Proof. reflexivity. Qed.

Example scenario_b :
  fst (attribution (Sample.env 0 [] 0 []) Sample.old_b Sample.new_b (Sample.world [] []))
  = Done (Some "XYZ789").
Proof. reflexivity. Qed.

Example scenario_c :
  fst (attribution (Sample.env 0 [] 0 []) [] [] (Sample.world [] Sample.ledger_c))
  = Done (Some "FALLBACK1").
Proof. reflexivity. Qed.

Example scenario_d :
  asignarRolPorInvite (Sample.env 40 (Sample.roles_R1 5) 3 []) Sample.member "ABC123"
    (Sample.world [] Sample.ledger_d)
  = (Done tt,
     logged (Sample.world [] Sample.ledger_d)
       [Console LOG (MsgTrying "user#0001" "ABC123");
        Console WARN (MsgHierarchy "member" "user#0001")]).
Proof. reflexivity. Qed.

Example scenario_e :
  generate_invite (Sample.env 90000000 [] 0 []) Sample.request_e
    (Sample.world [] Sample.ledger_e)
  = (Done (mkResponse 200 (Some "https://discord.gg/NEW001")),
     {| inviteCache := [];
        ledger := [mark_expired (Sample.pending "OLD001" "R1" "a@x.com" 0);
                   Sample.pending "NEW001" "R1" "a@x.com" 90000000];
        memberRoles := [];
        trace := [Console LOG (MsgExpiredPending "a@x.com" "OLD001");
                  DbUpdateExpired "OLD001";
                  Console LOG MsgGuildFound;
                  InviteIssued "NEW001";
                  Console LOG (MsgInviteIssued "NEW001");
                  DbInsert (Sample.pending "NEW001" "R1" "a@x.com" 90000000);
                  MailSend "a@x.com" "https://discord.gg/NEW001";
                  Console LOG MsgMailSent] |}).
Proof. reflexivity. Qed.

(** An empty code found by step 1 is read as no code: the later steps run. *)
Example empty_code_falls_through :
  attribution (Sample.env 0 [] 0 []) [("", 0)] [("", Sample.inv "" 1)]
    (Sample.world [] Sample.ledger_c)
  = (Done (Some "FALLBACK1"),
     logged (Sample.world [] Sample.ledger_c)
       [Console LOG (MsgIncrement ""); Console LOG (MsgFallback "FALLBACK1")]).
Proof. reflexivity. Qed.

(** The claim C1 as first stated fails: [A] is the only code of both
    snapshots whose count rose and nothing vanished, yet the invite [B],
    which the cache never saw, is scanned first and returned. *)
Lemma C1_counterexample :
  JsMap.wf Sample.old_unseen /\ JsMap.wf Sample.new_unseen /\
  (forall c, increased_in_both Sample.old_unseen Sample.new_unseen c <-> c = "A") /\
  none_vanished Sample.old_unseen Sample.new_unseen /\
  fst (attribution (Sample.env 0 [] 0 Sample.new_unseen) Sample.old_unseen
         Sample.new_unseen (Sample.world [] []))
  = Done (Some "B") /\
  fst (attribution (Sample.env 0 [] 0 Sample.new_unseen) Sample.old_unseen
         Sample.new_unseen (Sample.world [] []))
  <> Done (Some "A").
Proof.
  split; [distinct_keys|]. split; [distinct_keys|]. split; [|split; [|split]].
  - intros c. unfold increased_in_both, new_uses. simpl. split.
    + intros (o & n & Ho & Hn & Hlt). by_keys.
    + intros ->. exists 0, 1. now vm_compute.
  - intros c. unfold JsMap.has. simpl. by_keys.
  - reflexivity.
  - discriminate.
Qed.

Lemma C1_witness :
  attribution (Sample.env 0 [] 0 Sample.new_a) Sample.old_a Sample.new_a (Sample.world [] [])
  = (Done (Some "ABC123"),
     logged (Sample.world [] []) [Console LOG (MsgIncrement "ABC123")]).
Proof.
  apply C1_single_increase_attributed.
  - distinct_keys.
  - discriminate.
  - intros c. unfold increased_in_both, new_uses. simpl. split.
    + intros (o & n & Ho & Hn & Hlt). by_keys.
    + intros ->. exists 0, 1. now vm_compute.
  - intros c. unfold JsMap.has. simpl. by_keys.
  - intros c n. unfold JsMap.has, new_uses. simpl. by_keys.
Defined.

(** The claim C2 as first stated fails: [X] is the only code of [old]
    that [new] lacks and no code of both snapshots rose (they share
    none), yet the invite [B], which the cache never saw, is found by
    step 1 and returned. *)
Lemma C2_counterexample :
  JsMap.wf [("X", 0)] /\ JsMap.wf [("B", Sample.inv "B" 1)] /\
  (forall c, vanished [("X", 0)] [("B", Sample.inv "B" 1)] c <-> c = "X") /\
  (forall c, ~ increased_in_both [("X", 0)] [("B", Sample.inv "B" 1)] c) /\
  fst (attribution (Sample.env 0 [] 0 [("B", Sample.inv "B" 1)]) [("X", 0)]
         [("B", Sample.inv "B" 1)] (Sample.world [] []))
  = Done (Some "B") /\
  fst (attribution (Sample.env 0 [] 0 [("B", Sample.inv "B" 1)]) [("X", 0)]
         [("B", Sample.inv "B" 1)] (Sample.world [] []))
  <> Done (Some "X").
Proof.
  split; [distinct_keys|]. split; [distinct_keys|]. split; [|split; [|split]].
  - intros c. unfold vanished, JsMap.has. simpl. split.
    + intros [H _]. by_keys.
    + now intros ->.
  - intros c (o & n & Ho & Hn & _). unfold new_uses in Hn. simpl in *. by_keys.
  - reflexivity.
  - discriminate.
Qed.

Lemma C2_witness :
  attribution (Sample.env 0 [] 0 Sample.new_b) Sample.old_b Sample.new_b (Sample.world [] [])
  = (Done (Some "XYZ789"),
     logged (Sample.world [] []) [Console LOG (MsgVanished "XYZ789")])
  /\
  attribution (Sample.env 0 [] 0 Sample.new_both) Sample.old_both Sample.new_both
    (Sample.world [] [])
  = (Done (Some "ABC123"),
     logged (Sample.world [] []) [Console LOG (MsgIncrement "ABC123")]).
Proof.
  split.
  - refine (proj2 (proj1 (C2_vanished_code_attributed _ Sample.old_b Sample.new_b _ _)
                     "XYZ789" _ _ _ _)).
    + distinct_keys.
    + discriminate.
    + intros c. unfold vanished, JsMap.has. simpl. split.
      * intros [H _]. by_keys.
      * now intros ->.
    + intros c (o & n & _ & Hn & _). unfold new_uses in Hn. simpl in Hn. discriminate.
    + intros c n _. unfold new_uses. simpl. discriminate.
  - refine (proj2 (C2_vanished_code_attributed _ Sample.old_both Sample.new_both _ _)
              "ABC123" _ _).
    + distinct_keys.
    + discriminate.
    + reflexivity.
Defined.

Lemma C3_witness :
  (exists r,
     is_most_recent_pending Sample.ledger_c r /\
     attribution (Sample.env 0 [] 0 []) [] [] (Sample.world [] Sample.ledger_c)
     = (Done (Some (invite_code r)),
        logged (Sample.world [] Sample.ledger_c)
          [Console LOG (MsgFallback (invite_code r))]))
  /\
  attribution (Sample.env 0 [] 0 []) [] [] (Sample.world [] Sample.ledger_no_pending)
  = (Done None, Sample.world [] Sample.ledger_no_pending).
Proof.
  split.
  - apply (C3_ledger_fallback (Sample.env 0 [] 0 []) [] []
             (Sample.world [] Sample.ledger_c) eq_refl eq_refl eq_refl).
    exists (Sample.pending "FALLBACK0" "R1" "a@x.com" 5). split; [now left|reflexivity].
  - apply (C3_ledger_fallback (Sample.env 0 [] 0 []) [] []
             (Sample.world [] Sample.ledger_no_pending) eq_refl eq_refl eq_refl).
    intros r [<-|[]]. discriminate.
Defined.

Lemma C4_witness :
  ledger (snd (asignarRolPorInvite (Sample.env 40 (Sample.roles_R1 2) 3 []) Sample.member
                 "USED01" (Sample.world [] Sample.ledger_d)))
  = Sample.ledger_d
  /\
  memberRoles (snd (asignarRolPorInvite (Sample.env 40 (Sample.roles_R1 2) 3 [])
                      Sample.member "USED01" (Sample.world [] Sample.ledger_d)))
  = [].
Proof.
  refine (proj1 (C4_markUsed_only_from_pending _ _ "USED01"
                   (Sample.world [] Sample.ledger_d) _)
            (Sample.used "USED01" "R1" "c@x.com" 20 25 "u0") _ eq_refl (or_introl eq_refl)).
  - distinct_keys.
  - now left.
Defined.

Lemma C5_witness :
  fst (asignarRolPorInvite (Sample.env 40 (Sample.roles_R1 5) 3 []) Sample.member
         "ABC123" (Sample.world [] Sample.ledger_d)) = Done tt
  /\
  memberRoles (snd (asignarRolPorInvite (Sample.env 40 (Sample.roles_R1 5) 3 [])
                      Sample.member "ABC123" (Sample.world [] Sample.ledger_d))) = []
  /\
  ledger (snd (asignarRolPorInvite (Sample.env 40 (Sample.roles_R1 5) 3 [])
                 Sample.member "ABC123" (Sample.world [] Sample.ledger_d)))
  = Sample.ledger_d.
Proof.
  destruct (C5_refused_grant_is_inert (Sample.env 40 (Sample.roles_R1 5) 3 [])
              Sample.member "ABC123" (Sample.world [] Sample.ledger_d)
              (Sample.pending "ABC123" "R1" "a@x.com" 30) [] eq_refl)
    as (Hdone & Hroles & Hledger & _).
  - right. exists (mkRole "member" 5), 3. repeat split. simpl. lia.
  - repeat split; assumption.
Defined.

Lemma C6_witness :
  asignarRolPorInvite (Sample.env 40 (Sample.roles_R1 2) 3 []) Sample.member "ABC123"
    (Sample.world [] Sample.ledger_d)
  = (Done tt,
     {| inviteCache := [];
        ledger := [Sample.used "USED01" "R1" "c@x.com" 20 25 "u0";
                   Sample.used "ABC123" "R1" "a@x.com" 30 40 "u1"];
        memberRoles := [("u1", "R1")];
        trace := [Console LOG (MsgTrying "user#0001" "ABC123");
                  RolesAdd "u1" "R1";
                  Console LOG (MsgRoleAssigned "member" "user#0001" "a@x.com");
                  DbUpdateUsed "ABC123" "u1" 40;
                  Console LOG (MsgMarkedUsed "ABC123")] |})
  /\
  asignarRolPorInvite (Sample.env_db_down QUpdateUsed (Sample.env 40 (Sample.roles_R1 2) 3 []))
    Sample.member "ABC123" (Sample.world [] Sample.ledger_d)
  = (Done tt,
     {| inviteCache := [];
        ledger := Sample.ledger_d;
        memberRoles := [("u1", "R1")];
        trace := [Console LOG (MsgTrying "user#0001" "ABC123");
                  RolesAdd "u1" "R1";
                  Console LOG (MsgRoleAssigned "member" "user#0001" "a@x.com");
                  Console ERROR (MsgGrantError "user#0001" "ABC123")] |}).
Proof.
  split.
  - refine (proj1 (C6_grant_precedes_ledger_write
                     (Sample.env 40 (Sample.roles_R1 2) 3 []) Sample.member "ABC123"
                     (Sample.world [] Sample.ledger_d)
                     (Sample.pending "ABC123" "R1" "a@x.com" 30) [] (mkRole "member" 2) 3
                     eq_refl eq_refl eq_refl eq_refl _ eq_refl) eq_refl).
    simpl. lia.
  - refine (proj1 (proj2 (C6_grant_precedes_ledger_write
                     (Sample.env_db_down QUpdateUsed (Sample.env 40 (Sample.roles_R1 2) 3 []))
                     Sample.member "ABC123"
                     (Sample.world [] Sample.ledger_d)
                     (Sample.pending "ABC123" "R1" "a@x.com" 30) [] (mkRole "member" 2) 3
                     eq_refl eq_refl eq_refl eq_refl _ eq_refl) eq_refl)).
    simpl. lia.
Defined.

Lemma C7_witness :
  one_pending_per_email
    (ledger (snd (generate_invite (Sample.env 90000000 [] 0 []) Sample.request_e
                    (Sample.world [] Sample.ledger_e))))
  /\
  ledger (snd (generate_invite (Sample.env 90000000 [] 0 []) Sample.request_e
                 (Sample.world [] Sample.ledger_e)))
  = [mark_expired (Sample.pending "OLD001" "R1" "a@x.com" 0);
     Sample.pending "NEW001" "R1" "a@x.com" 90000000]
  /\
  ledger (snd (generate_invite (Sample.env 1000 [] 0 []) Sample.request_e
                 (Sample.world [] Sample.ledger_e)))
  = Sample.ledger_e.
Proof.
  assert (Hone : one_pending_per_email (ledger (Sample.world [] Sample.ledger_e)))
    by distinct_keys.
  destruct (C7_issuance_keeps_one_pending_per_email (Sample.env 90000000 [] 0 [])
              Sample.request_e (Sample.world [] Sample.ledger_e) Hone)
    as (Hinv & _ & Hexpired).
  destruct (C7_issuance_keeps_one_pending_per_email (Sample.env 1000 [] 0 [])
              Sample.request_e (Sample.world [] Sample.ledger_e) Hone)
    as (_ & Hvalid & _).
  split; [exact Hinv|]. split.
  - destruct (Hexpired (Sample.pending "OLD001" "R1" "a@x.com" 0) [] eq_refl) as [_ Hok].
    + vm_compute. discriminate.
    + destruct (Hok (mkCreated "NEW001" "https://discord.gg/NEW001")
                  eq_refl eq_refl eq_refl eq_refl eq_refl eq_refl eq_refl eq_refl)
        as (Hl & _).
      * simpl. intuition discriminate.
      * rewrite Hl. reflexivity.
  - apply (Hvalid (Sample.pending "OLD001" "R1" "a@x.com" 0) [] eq_refl). reflexivity.
Defined.

Lemma C8_witness :
  JsMap.get
    (inviteCache (snd (guildMemberAdd (Sample.env 0 [] 0 Sample.new_a) Sample.member
                         (Sample.world [("G1", Sample.old_a)] []))))
    "G1"
  = Some [("OTHER1", 2); ("ABC123", 1)]
  /\
  JsMap.get
    (inviteCache (snd (guildMemberAdd (Sample.env 0 [] 0 Sample.new_b) Sample.gated_member
                         (Sample.world [("G1", Sample.old_b)] []))))
    "G1"
  = Some [].
Proof.
  split.
  - exact (proj1 (proj2 (C8_join_resynchronises_cache (Sample.env 0 [] 0 Sample.new_a)
                           Sample.member (Sample.world [("G1", Sample.old_a)] [])
                           Sample.new_a eq_refl))).
  - exact (proj1 (proj2 (C8_join_resynchronises_cache (Sample.env 0 [] 0 Sample.new_b)
                           Sample.gated_member (Sample.world [("G1", Sample.old_b)] [])
                           Sample.new_b eq_refl))).
Defined.

Lemma C9_witness :
  populateGuildInvites (Sample.env_fetch_down (Sample.env 0 [] 0 [])) "G1"
    (Sample.world [("G1", Sample.old_a)] [])
  = (Done tt,
     logged (Sample.world [("G1", Sample.old_a)] []) [Console ERROR (MsgPopulateError "G1")])
  /\
  snapshot
    (inviteCache (snd (populateGuildInvites (Sample.env_fetch_down (Sample.env 0 [] 0 []))
                         "G1" (Sample.world [("G1", Sample.old_a)] []))))
    "G1"
  = Sample.old_a.
Proof.
  destruct (C9_failed_populate_keeps_snapshot (Sample.env_fetch_down (Sample.env 0 [] 0 []))
              "G1" (Sample.world [("G1", Sample.old_a)] []) (or_intror eq_refl))
    as (Hrun & _ & Hsnap & _).
  split; [exact Hrun|exact Hsnap].
Defined.

Lemma C10_witness :
  increment_scan [("OLD001", 3)]
    ([("OLD001", Sample.inv "OLD001" 3)] ++ ("NEW001", Sample.inv "NEW001" 1) :: [])
  = Some "NEW001"
  /\
  attribution (Sample.env 0 [] 0 []) [("OLD001", 3)]
    ([("OLD001", Sample.inv "OLD001" 3)] ++ ("NEW001", Sample.inv "NEW001" 1) :: [])
    (Sample.world [] Sample.ledger_c)
  = (Done (Some "NEW001"),
     logged (Sample.world [] Sample.ledger_c) [Console LOG (MsgIncrement "NEW001")]).
Proof.
  apply C10_new_only_code_attributed.
  - discriminate.
  - reflexivity.
  - reflexivity.
  - intros k i [H|[]]. injection H as <- <-. vm_compute. discriminate.
Defined.

(* ================================================================== *)
(** * Further properties of the handlers *)

(* ------------------------------------------------------------------ *)
(** ** More on maps *)

Module JsMapLaws.
Import JsMap.

Section Laws.
Context {V : Type}.
Implicit Types (m : JsMap.t V) (k : string) (v : V).

Lemma keys_set m k v :
  keys (set m k v) = if has m k then keys m else keys m ++ [k].
Proof.
  unfold has, keys. induction m as [|[k' v'] m IH]; simpl; [easy|].
  destruct (String.eqb_spec k' k) as [->|Hne]; simpl; [easy|].
  rewrite IH. now destruct (get m k).
Qed.

Lemma wf_set m k v : wf m -> wf (set m k v).
Proof.
  unfold wf. rewrite keys_set. destruct (has m k) eqn:Hhas; [easy|].
  intros Hnd. apply NoDup_snoc; [easy|].
  intros Hin. apply JsMapFacts.has_true_iff in Hin. congruence.
Qed.

Lemma In_set m k v k' v' :
  In (k', v') (set m k v) -> (k' = k /\ v' = v) \/ In (k', v') m.
Proof.
  induction m as [|[k0 v0] m IH]; simpl.
  - intros [[= <- <-]|[]]. now left.
  - destruct (String.eqb_spec k0 k) as [->|Hne]; simpl.
    + intros [[= <- <-]|Hin]; [now left|right; now right].
    + intros [Heq|Hin]; [right; now left|].
      destruct (IH Hin) as [Hnew|Hold]; [now left|right; now right].
Qed.

Lemma In_delete m k k' v' : In (k', v') (delete m k) -> In (k', v') m.
Proof.
  induction m as [|[k0 v0] m IH]; simpl; [easy|].
  destruct (String.eqb k0 k); simpl; [now right|].
  intros [Heq|Hin]; [now left|right; now apply IH].
Qed.

Lemma wf_delete m k : wf m -> wf (delete m k).
Proof.
  unfold wf, keys. induction m as [|[k0 v0] m IH]; simpl; [easy|].
  intros Hnd. inversion Hnd as [|? ? Hnotin Hnd']; subst.
  destruct (String.eqb k0 k); simpl; [easy|].
  constructor; [|now apply IH].
  intros Hin. apply Hnotin. apply in_map_iff in Hin as ([k1 v1] & Hk & Hin).
  simpl in Hk. subst k1. apply In_delete in Hin. now apply (in_map fst) in Hin.
Qed.

Lemma get_delete_same m k : wf m -> get (delete m k) k = None.
Proof.
  unfold wf, keys. induction m as [|[k0 v0] m IH]; simpl; [easy|].
  intros Hnd. inversion Hnd as [|? ? Hnotin Hnd']; subst.
  destruct (String.eqb_spec k0 k) as [->|Hne]; simpl.
  - apply JsMapFacts.has_false_get.
    destruct (has m k) eqn:Hhas; [|easy].
    apply JsMapFacts.has_true_iff in Hhas. now apply Hnotin in Hhas.
  - apply String.eqb_neq in Hne. rewrite Hne. now apply IH.
Qed.

Lemma get_delete_other m k k' : k' <> k -> get (delete m k) k' = get m k'.
Proof.
  intros Hne. induction m as [|[k0 v0] m IH]; simpl; [easy|].
  destruct (String.eqb_spec k0 k) as [->|Hne0]; simpl.
  - apply not_eq_sym in Hne. now apply String.eqb_neq in Hne as ->.
  - now rewrite IH.
Qed.

Lemma delete_set_fresh m k v : get m k = None -> delete (set m k v) k = m.
Proof.
  induction m as [|[k0 v0] m IH]; simpl.
  - now rewrite String.eqb_refl.
  - destruct (String.eqb_spec k0 k) as [->|Hne]; [discriminate|]. simpl.
    apply String.eqb_neq in Hne. rewrite Hne. intros H. now rewrite IH.
Qed.

Lemma set_get_same m k v : get m k = Some v -> set m k v = m.
Proof.
  induction m as [|[k0 v0] m IH]; simpl; [discriminate|].
  destruct (String.eqb_spec k0 k) as [->|Hne].
  - now intros [= ->].
  - intros H. now rewrite IH.
Qed.

End Laws.

End JsMapLaws.

Lemma snapshot_of_wf coll : JsMap.wf (snapshot_of coll).
Proof.
  unfold snapshot_of.
  assert (Hgen : forall m : Snapshot, JsMap.wf m ->
             JsMap.wf (fold_left
                         (fun m kv => JsMap.set m (inv_code (snd kv))
                                        (nullish (inv_uses (snd kv)))) coll m)).
  { induction coll as [|kv coll IH]; intros m Hm; [easy|].
    simpl. apply IH. now apply JsMapLaws.wf_set. }
  apply Hgen. constructor.
Qed.

Lemma snapshot_set c g m : snapshot (JsMap.set c g m) g = m.
Proof. unfold snapshot. now rewrite JsMapFacts.get_set_same. Qed.

Lemma snapshot_set_other c g m g' : g' <> g -> snapshot (JsMap.set c g m) g' = snapshot c g'.
Proof. intros Hne. unfold snapshot. now rewrite JsMapFacts.get_set_other. Qed.

(* ------------------------------------------------------------------ *)
(** ** The cache handlers *)

(** X1.  When both fetches of [populateGuildInvites] resolve, the guild's
    snapshot is replaced wholesale by the snapshot of the fetched list,
    the entries of every other guild stay, and ledger and role assignments
    are not touched. *)
Theorem X1_populate_replaces_snapshot env guildId w name coll :
  fetched_guild env = Some name ->
  fetched_invites env = Some coll ->
  populateGuildInvites env guildId w =
    (Done tt,
     {| inviteCache := JsMap.set (inviteCache w) guildId (snapshot_of coll);
        ledger := ledger w; memberRoles := memberRoles w;
        trace := trace w ++
                 [Console LOG (MsgCachePopulated name guildId
                                 (JsMap.size (snapshot_of coll)))] |}) /\
  snapshot (inviteCache (snd (populateGuildInvites env guildId w))) guildId
  = snapshot_of coll /\
  forall g, g <> guildId ->
    JsMap.get (inviteCache (snd (populateGuildInvites env guildId w))) g
    = JsMap.get (inviteCache w) g.
Proof.
  intros Hg Hi.
  assert (Hrun : populateGuildInvites env guildId w =
    (Done tt,
     {| inviteCache := JsMap.set (inviteCache w) guildId (snapshot_of coll);
        ledger := ledger w; memberRoles := memberRoles w;
        trace := trace w ++
                 [Console LOG (MsgCachePopulated name guildId
                                 (JsMap.size (snapshot_of coll)))] |})).
  { unfold populateGuildInvites. run_handler. now rewrite Hg, Hi. }
  split; [exact Hrun|]. rewrite Hrun. simpl. split.
  - apply snapshot_set.
  - intros g Hne. now apply JsMapFacts.get_set_other.
Qed.

Lemma X1_witness :
  snapshot (inviteCache (snd (populateGuildInvites Sample2.env_ok "G1" Sample2.world))) "G1"
  = [("ABC123", 1); ("FRESH1", 0)]
  /\
  JsMap.get (inviteCache (snd (populateGuildInvites Sample2.env_ok "G1" Sample2.world))) "G2"
  = Some Sample.old_b.
Proof.
  destruct (X1_populate_replaces_snapshot Sample2.env_ok "G1" Sample2.world
              "guild" Sample2.fetched eq_refl eq_refl) as (_ & Hsnap & Hother).
  split; [exact Hsnap|]. apply Hother. discriminate.
Defined.

(** X2.  The snapshot built from a fetched list always has pairwise
    distinct codes; when the list has distinct keys, each the code of its
    invite, the snapshot holds exactly the codes of the list, each with
    the count the scans read for it ([uses ?? 0]). *)
Theorem X2_snapshot_of_faithful coll :
  JsMap.wf (snapshot_of coll) /\
  (JsMap.wf coll -> keyed_by_code coll ->
   forall c, JsMap.get (snapshot_of coll) c = new_uses coll c).
Proof.
  split; [apply snapshot_of_wf|]. intros Hwf Hkey c. now apply snapshot_of_get.
Qed.

Lemma X2_witness :
  JsMap.get (snapshot_of Sample2.fetched) "FRESH1" = new_uses Sample2.fetched "FRESH1".
Proof.
  apply (proj2 (X2_snapshot_of_faithful Sample2.fetched)).
  - distinct_keys.
  - intros k i [H|[H|[]]]; now injection H as <- <-.
Defined.

(** The two notification handlers on a notification that carries a guild
    id and a code. *)
Lemma inviteCreate_run g code uses w :
  g <> "" -> code <> "" ->
  inviteCreate (Some g) (Some code) uses w =
    (Done tt,
     {| inviteCache :=
          JsMap.set (if JsMap.has (inviteCache w) g then inviteCache w
                     else JsMap.set (inviteCache w) g JsMap.empty) g
            (JsMap.set (snapshot (inviteCache w) g) code (nullish uses));
        ledger := ledger w; memberRoles := memberRoles w;
        trace := trace w ++ [Console LOG (MsgInviteCreated code g)] |}).
Proof.
  intros Hg Hc. unfold inviteCreate.
  rewrite (truthy_code _ Hg), (truthy_code _ Hc). simpl. run_handler.
  destruct (JsMap.has (inviteCache w) g) eqn:Hhas; simpl; [easy|].
  rewrite snapshot_set. apply JsMapFacts.has_false_get in Hhas.
  unfold snapshot. now rewrite Hhas.
Qed.

Lemma inviteDelete_run g code w :
  g <> "" -> code <> "" ->
  inviteDelete (Some g) (Some code) w =
    (Done tt,
     {| inviteCache :=
          match JsMap.get (inviteCache w) g with
          | Some m => JsMap.set (inviteCache w) g (JsMap.delete m code)
          | None => inviteCache w
          end;
        ledger := ledger w; memberRoles := memberRoles w;
        trace := trace w ++ [Console LOG (MsgInviteDeleted code g)] |}).
Proof.
  intros Hg Hc. unfold inviteDelete.
  rewrite (truthy_code _ Hg), (truthy_code _ Hc). simpl. run_handler.
  now destruct (JsMap.get (inviteCache w) g).
Qed.

(** X3.  After an invite-created notification for guild [g] and code
    [code], the guild's snapshot maps [code] to [uses ?? 0]; its other
    codes, the snapshots of other guilds, the ledger and the role
    assignments are as before. *)
Theorem X3_inviteCreate_then_lookup g code uses w :
  g <> "" -> code <> "" ->
  let w' := snd (inviteCreate (Some g) (Some code) uses w) in
  JsMap.get (snapshot (inviteCache w') g) code = Some (nullish uses) /\
  (forall c, c <> code ->
     JsMap.get (snapshot (inviteCache w') g) c = JsMap.get (snapshot (inviteCache w) g) c) /\
  (forall g', g' <> g -> snapshot (inviteCache w') g' = snapshot (inviteCache w) g') /\
  ledger w' = ledger w /\ memberRoles w' = memberRoles w.
Proof.
  intros Hg Hc w'. subst w'. rewrite (inviteCreate_run _ _ _ _ Hg Hc). simpl.
  rewrite snapshot_set. split; [apply JsMapFacts.get_set_same|]. split.
  - intros c Hne. now apply JsMapFacts.get_set_other.
  - split; [|easy]. intros g' Hne. rewrite snapshot_set_other by easy.
    destruct (JsMap.has (inviteCache w) g); [easy|]. now apply snapshot_set_other.
Qed.

Lemma X3_witness :
  JsMap.get (snapshot (inviteCache (snd (inviteCreate (Some "G3") (Some "NEW777") None
                                           Sample2.world))) "G3") "NEW777"
  = Some 0.
Proof.
  refine (proj1 (X3_inviteCreate_then_lookup "G3" "NEW777" None Sample2.world _ _));
    discriminate.
Defined.

(** X4.  After an invite-deleted notification, a guild snapshot with
    distinct codes no longer holds the code; its other codes and the
    snapshots of other guilds are as before, and a code or guild that the
    cache does not know leaves every snapshot as it was. *)
Theorem X4_inviteDelete_removes g code w :
  g <> "" -> code <> "" ->
  JsMap.wf (snapshot (inviteCache w) g) ->
  let w' := snd (inviteDelete (Some g) (Some code) w) in
  JsMap.has (snapshot (inviteCache w') g) code = false /\
  (forall c, c <> code ->
     JsMap.get (snapshot (inviteCache w') g) c = JsMap.get (snapshot (inviteCache w) g) c) /\
  (forall g', g' <> g -> snapshot (inviteCache w') g' = snapshot (inviteCache w) g') /\
  (JsMap.has (snapshot (inviteCache w) g) code = false ->
   forall g', snapshot (inviteCache w') g' = snapshot (inviteCache w) g').
Proof.
  intros Hg Hc Hwf w'. subst w'. rewrite (inviteDelete_run _ _ _ Hg Hc). simpl.
  destruct (JsMap.get (inviteCache w) g) as [m|] eqn:Hget.
  - assert (Hsnap : snapshot (inviteCache w) g = m) by (unfold snapshot; now rewrite Hget).
    rewrite Hsnap in *. rewrite snapshot_set. split; [|split; [|split]].
    + apply JsMapFacts.has_false_get. now apply JsMapLaws.get_delete_same.
    + intros c Hne. now apply JsMapLaws.get_delete_other.
    + intros g' Hne. now apply snapshot_set_other.
    + intros Habsent g'. apply JsMapFacts.has_false_get in Habsent.
      assert (Hsame : JsMap.delete m code = m).
      { clear -Habsent. induction m as [|[k v] m IH]; [easy|]. simpl in *.
        destruct (String.eqb k code); [discriminate|]. now rewrite IH. }
      now rewrite Hsame, (JsMapLaws.set_get_same _ _ _ Hget).
  - assert (Hsnap : snapshot (inviteCache w) g = JsMap.empty)
      by (unfold snapshot; now rewrite Hget).
    rewrite Hsnap. repeat split; easy.
Qed.

Lemma X4_witness :
  JsMap.has (snapshot (inviteCache (snd (inviteDelete (Some "G1") (Some "ABC123")
                                           Sample2.world))) "G1") "ABC123"
  = false.
Proof.
  refine (proj1 (X4_inviteDelete_removes "G1" "ABC123" Sample2.world _ _ _));
    [discriminate|discriminate|distinct_keys].
Defined.

(** X5.  An invite-created notification for a code the guild's snapshot
    does not hold, followed by the invite-deleted notification for the
    same code, gives back the guild's snapshot as it was, entry for entry
    and in the same order. *)
Theorem X5_create_then_delete g code uses w :
  g <> "" -> code <> "" ->
  JsMap.has (snapshot (inviteCache w) g) code = false ->
  let w1 := snd (inviteCreate (Some g) (Some code) uses w) in
  let w2 := snd (inviteDelete (Some g) (Some code) w1) in
  snapshot (inviteCache w2) g = snapshot (inviteCache w) g /\
  forall g', g' <> g -> snapshot (inviteCache w2) g' = snapshot (inviteCache w) g'.
Proof.
  intros Hg Hc Habsent w1 w2. subst w1 w2.
  rewrite (inviteDelete_run _ _ _ Hg Hc), (inviteCreate_run _ _ _ _ Hg Hc). simpl.
  rewrite JsMapFacts.get_set_same. apply JsMapFacts.has_false_get in Habsent.
  split.
  - rewrite snapshot_set. now apply JsMapLaws.delete_set_fresh.
  - intros g' Hne. rewrite !snapshot_set_other by easy.
    destruct (JsMap.has (inviteCache w) g); [easy|]. now apply snapshot_set_other.
Qed.

Lemma X5_witness :
  snapshot (inviteCache (snd (inviteDelete (Some "G1") (Some "NEW777")
                                (snd (inviteCreate (Some "G1") (Some "NEW777") (Some 0)
                                        Sample2.world))))) "G1"
  = Sample.old_a.
Proof.
  refine (proj1 (X5_create_then_delete "G1" "NEW777" (Some 0) Sample2.world _ _ _));
    [discriminate|discriminate|reflexivity].
Defined.

(* ------------------------------------------------------------------ *)
(** ** More on the attribution engine *)

(** X6.  The attribution engine is read-only: on every pair of snapshots
    and every ledger, with the store answering or not, it completes
    without throwing and leaves cache, ledger and role assignments as
    they were; it only adds log lines. *)
Theorem X6_attribution_read_only env old new w :
  exists u evs,
    attribution env old new w = (Done u, logged w evs) /\
    inviteCache (snd (attribution env old new w)) = inviteCache w /\
    ledger (snd (attribution env old new w)) = ledger w /\
    memberRoles (snd (attribution env old new w)) = memberRoles w.
Proof.
  destruct (attribution_done env old new w) as (u & evs & Hrun).
  exists u, evs. now rewrite Hrun.
Qed.

(** X7.  A non-empty code returned by the attribution engine always has
    one of three origins: an entry of the fetched list whose count
    exceeds the cached one (absent counting as 0), a cached code that the
    fetched list lacks, or a PENDING ledger row that no PENDING row
    exceeds in creation time.  The engine invents no code. *)
Theorem X7_attribution_provenance env old new w c :
  fst (attribution env old new w) = Done (Some c) ->
  c <> "" ->
  (exists inv, In (c, inv) new /\ nullish (JsMap.get old c) < nullish (inv_uses inv)) \/
  vanished old new c \/
  (exists r, is_most_recent_pending (ledger w) r /\ invite_code r = c).
Proof.
  unfold attribution. run_handler.
  repeat (match goal with
          | |- context [increment_scan old new] =>
              destruct (increment_scan old new) as [c1|] eqn:Hinc
          | |- context [disappearance_scan old new] =>
              destruct (disappearance_scan old new) as [c2|] eqn:Hdis
          | |- context [String.eqb ?a ""] => destruct (String.eqb_spec a "")
          | |- context [db_ok env QRecentPending] => destruct (db_ok env QRecentPending)
          | |- context [sql_select_recent_pending (ledger w)] =>
              destruct (sql_select_recent_pending (ledger w)) as [|row rest] eqn:Hsel
          end; simpl).
  all: intros H Hc; try discriminate; injection H as H; subst; try congruence.
  all: try (right; right; exists row; split;
            [now apply sql_select_recent_pending_some in Hsel|reflexivity]).
  all: try (right; left; now apply disappearance_scan_some).
  all: left; now apply increment_scan_some.
Qed.

Lemma X7_witness :
  (exists inv, In ("ABC123", inv) Sample.new_a /\
               nullish (JsMap.get Sample.old_a "ABC123") < nullish (inv_uses inv)) \/
  vanished Sample.old_a Sample.new_a "ABC123" \/
  (exists r, is_most_recent_pending (ledger Sample2.world) r /\ invite_code r = "ABC123").
Proof.
  apply (X7_attribution_provenance Sample2.env_ok Sample.old_a Sample.new_a Sample2.world).
  - reflexivity.
  - discriminate.
Defined.

(* ------------------------------------------------------------------ *)
(** ** More on the role grantor *)

Lemma select_after_update_used l t m c :
  sql_select_pending_by_code (sql_update_used l t m c) c = [].
Proof.
  apply filter_nil_of. intros x Hx.
  apply in_map_iff in Hx as (r & Hr & _).
  destruct (String.eqb_spec (invite_code r) c) as [Heq|Hne]; subst x.
  - apply andb_false_r.
  - apply String.eqb_neq in Hne. now rewrite Hne.
Qed.

Lemma asignarRolPorInvite_success env member code w row rest role h :
  db_ok env QPendingByCode = true ->
  sql_select_pending_by_code (ledger w) code = row :: rest ->
  JsMap.get (guild_roles env) (role_id row) = Some role ->
  bot_highest env = Some h ->
  position role < h ->
  roles_add_ok env = true ->
  db_ok env QUpdateUsed = true ->
  inviteCache (snd (asignarRolPorInvite env member code w)) = inviteCache w /\
  granted env member code row w (snd (asignarRolPorInvite env member code w)).
Proof.
  intros Hdb Hsel Hrole Hbot Hlt Hadd Hupd.
  destruct (select_pending_by_code_In _ _ _ _ Hsel) as (Hin & Hcode & Hp).
  unfold granted. run_handler. rewrite Hdb. simpl. rewrite Hsel. simpl.
  rewrite Hrole, Hbot. simpl.
  destruct (Z.geb_spec (position role) h) as [Hge|_]; [lia|]. simpl.
  rewrite Hadd, Hupd. simpl. now repeat split.
Qed.

(** X8.  The grantor never throws and never touches the invite cache.
    A run ends in one of three ways: nothing changed; one role assigned,
    the role of a PENDING row carrying the code, with the ledger as it
    was; or that role assigned and the rows of the code marked USED for
    the member.  So it assigns at most one role, only one that a PENDING
    row of the code names, and it never writes the ledger without having
    assigned the role. *)
Theorem X8_grantor_outcomes env member code w :
  let w' := snd (asignarRolPorInvite env member code w) in
  fst (asignarRolPorInvite env member code w) = Done tt /\
  inviteCache w' = inviteCache w /\
  ((ledger w' = ledger w /\ memberRoles w' = memberRoles w)
   \/
   (exists row,
      In row (ledger w) /\ invite_code row = code /\ status row = PENDING /\
      memberRoles w' = memberRoles w ++ [(member_user_id member, role_id row)] /\
      ledger w' = ledger w)
   \/
   (exists row, granted env member code row w w')).
Proof.
  destruct (asignarRolPorInvite_effects env member code w)
    as (Hdone & Hcache & [Hsame|(row & rest & Hsel & Hroles & [Hl|Hl])]).
  - repeat split; [easy..|]. now left.
  - repeat split; [easy..|]. right. left. exists row.
    destruct (select_pending_by_code_In _ _ _ _ Hsel) as (Hin & Hcode & Hp).
    now repeat split.
  - repeat split; [easy..|]. right. right. exists row.
    destruct (select_pending_by_code_In _ _ _ _ Hsel) as (Hin & Hcode & Hp).
    now repeat split.
Qed.

(** X9.  Once a run of the grantor has marked the rows of a code USED,
    any later run for that code, for any member and in any environment,
    assigns no role and leaves the ledger as it is: handled one after the
    other, two joins attributed to the same code yield one grant. *)
Theorem X9_no_second_grant env member code row w env' member' :
  granted env member code row w (snd (asignarRolPorInvite env member code w)) ->
  let w1 := snd (asignarRolPorInvite env member code w) in
  let w2 := snd (asignarRolPorInvite env' member' code w1) in
  ledger w2 = ledger w1 /\ memberRoles w2 = memberRoles w1 /\
  (db_ok env' QPendingByCode = true ->
   w2 = logged w1 [Console LOG (MsgTrying (member_tag member') code);
                   Console LOG (MsgNotPending code (member_tag member'))]).
Proof.
  intros (_ & _ & _ & _ & Hl) w1 w2.
  assert (Hsel : sql_select_pending_by_code (ledger w1) code = []).
  { subst w1. rewrite Hl. apply select_after_update_used. }
  subst w2. generalize dependent w1. intros w1 Hsel.
  run_handler. destruct (db_ok env' QPendingByCode); simpl; [|repeat split; easy].
  rewrite Hsel. simpl. repeat split. intros _. now rewrite <- app_assoc.
Qed.

Lemma X9_witness :
  memberRoles
    (snd (asignarRolPorInvite Sample2.env_ok Sample.gated_member "ABC123"
            (snd (asignarRolPorInvite Sample2.env_ok Sample.member "ABC123" Sample2.world))))
  = [("u1", "R1")].
Proof.
  refine (proj1 (proj2 (X9_no_second_grant Sample2.env_ok Sample.member "ABC123"
                          (Sample.pending "ABC123" "R1" "a@x.com" 30) Sample2.world
                          Sample2.env_ok Sample.gated_member _))).
  unfold granted. simpl. repeat split. right. now left.
Defined.

(** X10.  For a code that no ledger row carries (an invite that was not
    issued through the route), the grantor assigns no role and leaves
    the ledger as it is; when the store answers, all it does is log that
    the invite was not found or is already used or expired. *)
Theorem X10_grantor_unknown_code env member code w :
  ~ In code (codes (ledger w)) ->
  let w' := snd (asignarRolPorInvite env member code w) in
  ledger w' = ledger w /\ memberRoles w' = memberRoles w /\
  (db_ok env QPendingByCode = true ->
   w' = logged w [Console LOG (MsgTrying (member_tag member) code);
                  Console LOG (MsgNotPending code (member_tag member))]).
Proof.
  intros Hnot w'.
  assert (Hsel : sql_select_pending_by_code (ledger w) code = []).
  { apply filter_nil_of. intros x Hx.
    destruct (String.eqb_spec (invite_code x) code) as [Heq|Hne]; [|easy].
    exfalso. apply Hnot. rewrite <- Heq. now apply in_map. }
  subst w'. run_handler. destruct (db_ok env QPendingByCode); simpl; [|repeat split; easy].
  rewrite Hsel. simpl. repeat split. intros _. now rewrite <- app_assoc.
Qed.

Lemma X10_witness :
  ledger (snd (asignarRolPorInvite Sample2.env_ok Sample.member "HANDMADE" Sample2.world))
  = Sample.ledger_d
  /\
  memberRoles (snd (asignarRolPorInvite Sample2.env_ok Sample.member "HANDMADE"
                      Sample2.world))
  = [].
Proof.
  destruct (X10_grantor_unknown_code Sample2.env_ok Sample.member "HANDMADE" Sample2.world)
    as (Hl & Hr & _).
  - simpl. intuition discriminate.
  - split; [exact Hl|exact Hr].
Defined.

(* ------------------------------------------------------------------ *)
(** ** More on the join handlers *)

(** X11.  The join handler throws exactly when the fetch of the live
    invite list is rejected: the rejection is not caught, and the world
    (the cache in particular) stays as it was, without a log line; with
    the list obtained, neither a failing store nor a failing role
    assignment makes the handler throw. *)
Theorem X11_join_throws_iff_fetch_rejected env member w :
  (fetched_invites env = None ->
   guildMemberAdd env member w = (Thrown PlatformError, w)) /\
  (forall coll, fetched_invites env = Some coll ->
   fst (guildMemberAdd env member w) = Done tt).
Proof.
  split.
  - intros Hnone. unfold guildMemberAdd, bind, get_cache, from_option. now rewrite Hnone.
  - intros coll Hfetch.
    destruct (attribution_done env (snapshot (inviteCache w) (member_guild member)) coll w)
      as (u & evs & Hattr).
    rewrite (guildMemberAdd_run env member w coll u evs Hfetch Hattr). cbv zeta.
    destruct (negb (truthy u)); [easy|].
    destruct (member_pending member); [easy|].
    apply asignarRolPorInvite_effects.
Qed.

Lemma X11_witness :
  guildMemberAdd (Sample.env_fetch_down Sample2.env_ok) Sample.member Sample2.world
  = (Thrown PlatformError, Sample2.world)
  /\
  fst (guildMemberAdd Sample2.env_ok Sample.member Sample2.world) = Done tt.
Proof.
  split.
  - exact (proj1 (X11_join_throws_iff_fetch_rejected (Sample.env_fetch_down Sample2.env_ok)
                    Sample.member Sample2.world) eq_refl).
  - exact (proj2 (X11_join_throws_iff_fetch_rejected Sample2.env_ok Sample.member
                    Sample2.world) Sample2.fetched eq_refl).
Defined.

(** X12.  A member who joins while gated (pending) is never given a role
    by the join handler and the ledger is not written, whatever code was
    attributed; the same holds when no code was attributed. *)
Theorem X12_join_gated_or_unresolved env member w coll u w1 :
  fetched_invites env = Some coll ->
  attribution env (snapshot (inviteCache w) (member_guild member)) coll w = (Done u, w1) ->
  member_pending member = true \/ truthy u = false ->
  fst (guildMemberAdd env member w) = Done tt /\
  ledger (snd (guildMemberAdd env member w)) = ledger w /\
  memberRoles (snd (guildMemberAdd env member w)) = memberRoles w.
Proof.
  intros Hfetch Hattr Hcase.
  destruct (attribution_done env (snapshot (inviteCache w) (member_guild member)) coll w)
    as (u' & evs & Hattr').
  rewrite Hattr' in Hattr. injection Hattr as -> _.
  rewrite (guildMemberAdd_run env member w coll u evs Hfetch Hattr'). cbv zeta.
  destruct (truthy u); simpl; [|easy].
  destruct Hcase as [-> | Hfalse]; [easy|discriminate].
Qed.

Lemma X12_witness :
  ledger (snd (guildMemberAdd Sample2.env_ok Sample.gated_member Sample2.world))
  = Sample.ledger_d
  /\
  memberRoles (snd (guildMemberAdd Sample2.env_ok Sample.gated_member Sample2.world)) = [].
Proof.
  refine (proj2 (X12_join_gated_or_unresolved Sample2.env_ok Sample.gated_member
                   Sample2.world Sample2.fetched (Some "ABC123") _ eq_refl eq_refl
                   (or_introl eq_refl))).
Defined.

(** X13.  End to end: when the fetched list shows a non-empty code whose
    count rose, the member is not gated, the ledger holds a PENDING row
    for that code, its role exists below the bot's highest position and
    the platform and the store answer, the join handler assigns that
    row's role to the member, marks the rows of the code USED for the
    member at the current time, and leaves the guild's cached snapshot
    equal to the snapshot of the fetched list. *)
Theorem X13_join_grants_role env member w coll c row rest role h :
  fetched_invites env = Some coll ->
  increment_scan (snapshot (inviteCache w) (member_guild member)) coll = Some c ->
  c <> "" ->
  member_pending member = false ->
  db_ok env QPendingByCode = true ->
  db_ok env QUpdateUsed = true ->
  sql_select_pending_by_code (ledger w) c = row :: rest ->
  JsMap.get (guild_roles env) (role_id row) = Some role ->
  bot_highest env = Some h ->
  position role < h ->
  roles_add_ok env = true ->
  let w' := snd (guildMemberAdd env member w) in
  memberRoles w' = memberRoles w ++ [(member_user_id member, role_id row)] /\
  ledger w' = sql_update_used (ledger w) (now env) (member_user_id member) c /\
  snapshot (inviteCache w') (member_guild member) = snapshot_of coll.
Proof.
  intros Hfetch Hscan Hc Hpend Hdb Hupd Hsel Hrole Hbot Hlt Hadd w'. subst w'.
  pose proof (attribution_increment env _ _ c w Hscan Hc) as Hattr.
  rewrite (guildMemberAdd_run env member w coll (Some c) _ Hfetch Hattr). cbv zeta.
  rewrite (truthy_code _ Hc), Hpend. simpl negb. cbv iota.
  match goal with
  | |- context [asignarRolPorInvite env member ?c0 ?w0] =>
      destruct (asignarRolPorInvite_success env member c0 w0 row rest role h
                  Hdb Hsel Hrole Hbot Hlt Hadd Hupd)
        as (Hcache & _ & _ & _ & Hroles & Hl)
  end.
  rewrite Hroles, Hl, Hcache. simpl. repeat split. apply snapshot_set.
Qed.

Lemma X13_witness :
  memberRoles (snd (guildMemberAdd Sample2.env_ok Sample.member Sample2.world))
  = [("u1", "R1")]
  /\
  ledger (snd (guildMemberAdd Sample2.env_ok Sample.member Sample2.world))
  = [Sample.used "USED01" "R1" "c@x.com" 20 25 "u0";
     Sample.used "ABC123" "R1" "a@x.com" 30 40 "u1"].
Proof.
  destruct (X13_join_grants_role Sample2.env_ok Sample.member Sample2.world Sample2.fetched
              "ABC123" (Sample.pending "ABC123" "R1" "a@x.com" 30) [] (mkRole "member" 2) 3
              eq_refl eq_refl) as (Hroles & Hl & _);
    try reflexivity; try discriminate.
  split; [exact Hroles|exact Hl].
Defined.

(** X14.  A join attributed by the scans to a code that no ledger row
    carries gives the member no role and writes nothing to the ledger;
    the cache is refreshed all the same. *)
Theorem X14_join_with_foreign_invite env member w coll c :
  fetched_invites env = Some coll ->
  increment_scan (snapshot (inviteCache w) (member_guild member)) coll = Some c ->
  c <> "" ->
  ~ In c (codes (ledger w)) ->
  let w' := snd (guildMemberAdd env member w) in
  memberRoles w' = memberRoles w /\ ledger w' = ledger w /\
  snapshot (inviteCache w') (member_guild member) = snapshot_of coll.
Proof.
  intros Hfetch Hscan Hc Hnot w'. subst w'.
  pose proof (attribution_increment env _ _ c w Hscan Hc) as Hattr.
  rewrite (guildMemberAdd_run env member w coll (Some c) _ Hfetch Hattr). cbv zeta.
  rewrite (truthy_code _ Hc). simpl negb. cbv iota.
  destruct (member_pending member).
  - simpl. repeat split. apply snapshot_set.
  - match goal with
    | |- context [asignarRolPorInvite env member ?c0 ?w0] =>
        destruct (asignarRolPorInvite_effects env member c0 w0)
          as (_ & Hcache & [[Hl Hroles]|(row & rest & Hsel & _)])
    end.
    + rewrite Hl, Hroles, Hcache. simpl. repeat split. apply snapshot_set.
    + exfalso. apply select_pending_by_code_In in Hsel as (Hin & Hcode & _).
      apply Hnot. simpl in Hin, Hcode. rewrite <- Hcode. now apply in_map.
Qed.

Lemma X14_witness :
  memberRoles (snd (guildMemberAdd Sample2.env_ok Sample.member
                      (Sample.world Sample2.cache Sample.ledger_no_pending)))
  = []
  /\
  ledger (snd (guildMemberAdd Sample2.env_ok Sample.member
                 (Sample.world Sample2.cache Sample.ledger_no_pending)))
  = Sample.ledger_no_pending.
Proof.
  destruct (X14_join_with_foreign_invite Sample2.env_ok Sample.member
              (Sample.world Sample2.cache Sample.ledger_no_pending) Sample2.fetched
              "ABC123" eq_refl eq_refl) as (Hroles & Hl & _).
  - discriminate.
  - simpl. intuition discriminate.
  - split; [exact Hroles|exact Hl].
Defined.

(** X15.  The member-update handler acts only when the pending flag goes
    from true to false; otherwise the world is left exactly as it was.
    Whatever rows its query returns, it never throws and never touches
    the cache; with the store down it only logs, and with no row it logs
    that no trackable invite was found. *)
Theorem X15_member_update env oldPending newMember w :
  let w' := snd (guildMemberUpdate env oldPending newMember w) in
  fst (guildMemberUpdate env oldPending newMember w) = Done tt /\
  inviteCache w' = inviteCache w /\
  (oldPending = false \/ member_pending newMember = true -> w' = w) /\
  (oldPending = true -> member_pending newMember = false ->
   (db_ok env QLatestForMember = false ->
    w' = logged w [Console LOG (MsgScreeningDone (member_tag newMember));
                   Console ERROR (MsgPostScreeningError (member_tag newMember))]) /\
   (db_ok env QLatestForMember = true -> screening_rows env = [] ->
    w' = logged w [Console LOG (MsgScreeningDone (member_tag newMember));
                   Console LOG (MsgNoTrackable (member_tag newMember))])).
Proof.
  unfold guildMemberUpdate.
  destruct oldPending, (member_pending newMember); simpl;
    try (repeat split; intros; try discriminate; easy).
  unfold try_catch, bind, db_query, console, emit, get_ledger, ret, throw, logged.
  destruct (db_ok env QLatestForMember); simpl.
  - destruct (screening_rows env) as [|code rows]; simpl.
    + repeat split; intros; try discriminate; try (now rewrite <- app_assoc).
      now destruct H.
    + match goal with
      | |- context [asignarRolPorInvite env newMember ?c ?w1] =>
          destruct (asignarRolPorInvite_effects env newMember c w1) as (Hdone & Hcache & _);
          destruct (asignarRolPorInvite env newMember c w1) as [res w2]
      end.
      simpl in *. subst res. simpl.
      repeat split; intros; try discriminate; try easy. now destruct H.
  - repeat split; intros; try discriminate; try (now rewrite <- app_assoc).
    now destruct H.
Qed.

Lemma X15_witness :
  snd (guildMemberUpdate Sample2.env_ok false Sample.member Sample2.world) = Sample2.world
  /\
  snd (guildMemberUpdate Sample2.env_ok true Sample.member Sample2.world)
  = logged Sample2.world [Console LOG (MsgScreeningDone "user#0001");
                          Console LOG (MsgNoTrackable "user#0001")].
Proof.
  split.
  - exact (proj1 (proj2 (proj2 (X15_member_update Sample2.env_ok false Sample.member
                                  Sample2.world))) (or_introl eq_refl)).
  - exact (proj2 (proj2 (proj2 (proj2 (X15_member_update Sample2.env_ok true Sample.member
                                         Sample2.world))) eq_refl eq_refl)
             eq_refl eq_refl).
Defined.

(* ------------------------------------------------------------------ *)
(** ** More on issuance *)

(** Case analysis on everything a run of the route consults. *)
Ltac issuance_cases :=
  repeat (match goal with
          | |- context [db_ok ?e QPendingByEmail] => destruct (db_ok e QPendingByEmail) eqn:?
          | |- context [sql_select_pending_by_email ?l ?m] =>
              destruct (sql_select_pending_by_email l m) as [|existing rest] eqn:Hsel
          | |- context [Z.ltb ?a ?b] => destruct (Z.ltb_spec a b)
          | |- context [db_ok ?e QUpdateExpired] => destruct (db_ok e QUpdateExpired) eqn:?
          | |- context [guild_cached ?e] => destruct (guild_cached e) eqn:?
          | |- context [channel_ok ?e] => destruct (channel_ok e) eqn:?
          | |- context [created_invite ?e] =>
              destruct (created_invite e) as [invite|] eqn:?
          | |- context [db_ok ?e QInsert] => destruct (db_ok e QInsert) eqn:?
          | |- context [sql_insert ?l ?r] =>
              destruct (sql_insert l r) as [l1|] eqn:Hins
          | |- context [mail_outcome ?e] => destruct (mail_outcome e) eqn:?
          end; simpl).

Lemma valid_request_true req :
  valid_request req = true ->
  negb (truthy (req_email req)) || negb (truthy (req_roleId req)) = false.
Proof.
  unfold valid_request. now destruct (truthy (req_email req)), (truthy (req_roleId req)).
Qed.

Lemma valid_request_false req :
  valid_request req = false ->
  negb (truthy (req_email req)) || negb (truthy (req_roleId req)) = true.
Proof.
  unfold valid_request. now destruct (truthy (req_email req)), (truthy (req_roleId req)).
Qed.

(** Past the destructuring of the body, the route answers whatever fails. *)
Lemma generate_invite_responds env req w :
  exists resp,
    fst (generate_invite env req w) = Done resp /\
    (resp_status resp = 200 \/ resp_status resp = 400 \/ resp_status resp = 500) /\
    (resp_status resp = 400 <-> valid_request req = false) /\
    (valid_request req = false -> snd (generate_invite env req w) = w) /\
    (resp_status resp = 200 <-> resp_inviteUrl resp <> None).
Proof.
  unfold generate_invite. destruct (valid_request req) eqn:Hvalid.
  - rewrite (valid_request_true _ Hvalid). run_handler. issuance_cases.
    all: eexists; split; [reflexivity|]; simpl.
    all: repeat split; intros; try discriminate; try congruence; auto.
  - rewrite (valid_request_false _ Hvalid). eexists. split; [reflexivity|]. simpl.
    repeat split; intros; try discriminate; try congruence; auto.
Qed.

(** X16.  For a request whose body was parsed into an object, the route
    always answers: no failure of the store, the platform or the mail
    service makes it throw.  The status is 200, 400 or 500; it is 400
    exactly when the email or the role id is missing or empty, and then
    nothing at all was done; an invite URL is part of the answer exactly
    when the status is 200.  When [req.body] is undefined, the
    destructuring that precedes the [try] throws: the route does nothing
    and sends no answer of its own. *)
Theorem X16_issuance_answers_parsed_body env body w :
  (forall req, body = Some req ->
     exists resp,
       fst (generate_invite_route env body w) = Done resp /\
       (resp_status resp = 200 \/ resp_status resp = 400 \/ resp_status resp = 500) /\
       (resp_status resp = 400 <-> valid_request req = false) /\
       (valid_request req = false -> snd (generate_invite_route env body w) = w) /\
       (resp_status resp = 200 <-> resp_inviteUrl resp <> None))
  /\
  (body = None -> generate_invite_route env body w = (Thrown TypeError, w)).
Proof.
  split.
  - intros req ->. apply generate_invite_responds.
  - now intros ->.
Qed.

Lemma X16_witness :
  (exists resp,
     fst (generate_invite_route Sample2.env_ok (Some (mkRequest (Some "a@x.com") None))
            Sample2.world) = Done resp /\
     resp_status resp = 400 /\
     snd (generate_invite_route Sample2.env_ok (Some (mkRequest (Some "a@x.com") None))
            Sample2.world) = Sample2.world)
  /\
  generate_invite_route Sample2.env_ok None Sample2.world = (Thrown TypeError, Sample2.world).
Proof.
  split.
  - destruct (proj1 (X16_issuance_answers_parsed_body Sample2.env_ok
                       (Some (mkRequest (Some "a@x.com") None)) Sample2.world)
                (mkRequest (Some "a@x.com") None) eq_refl)
      as (resp & Hrun & _ & H400 & Hsame & _).
    exists resp. split; [exact Hrun|]. split; [now apply H400|now apply Hsame].
  - exact (proj2 (X16_issuance_answers_parsed_body Sample2.env_ok None Sample2.world)
             eq_refl).
Defined.

(** X17.  A 200 answer carries an invite URL, a mail with that URL was
    handed to the mail service for the requested address, and the ledger
    then holds a PENDING row for that address: the reused one, or the
    one just inserted. *)
Theorem X17_ok_answer_has_pending_row env req w resp :
  fst (generate_invite env req w) = Done resp ->
  resp_status resp = 200 ->
  let w' := snd (generate_invite env req w) in
  let mail := string_of (req_email req) in
  exists url r,
    resp_inviteUrl resp = Some url /\
    In (MailSend mail url) (trace w') /\
    In r (ledger w') /\ email r = mail /\ status r = PENDING.
Proof.
  unfold generate_invite. destruct (valid_request req) eqn:Hvalid.
  - rewrite (valid_request_true _ Hvalid). run_handler. issuance_cases.
    all: intros Hrun Hst; injection Hrun as <-; simpl in Hst; try discriminate.
    all: try (apply sql_insert_some in Hins as [-> _]).
    all: try (assert (Hex : In existing (sql_select_pending_by_email (ledger w)
                                           (string_of (req_email req))))
                by (rewrite Hsel; now left);
              apply select_pending_by_email_In in Hex as (Hex & Hmail & Hp)).
    all: eexists; eexists; split; [reflexivity|]; split;
           [rewrite !in_app_iff; simpl; tauto|].
    all: first [ now (repeat split; [exact Hex|exact Hmail|exact Hp])
               | split; [apply in_app_iff; right; now left|now split] ].
  - rewrite (valid_request_false _ Hvalid). intros [= <-]. discriminate.
Qed.

Lemma X17_witness :
  exists url r,
    Some "https://discord.gg/NEW001" = Some url /\
    In (MailSend "new@x.com" url)
       (trace (snd (generate_invite Sample2.env_ok Sample2.request Sample2.world))) /\
    In r (ledger (snd (generate_invite Sample2.env_ok Sample2.request Sample2.world))) /\
    email r = "new@x.com" /\ status r = PENDING.
Proof.
  exact (X17_ok_answer_has_pending_row Sample2.env_ok Sample2.request Sample2.world
           (mkResponse 200 (Some "https://discord.gg/NEW001")) eq_refl eq_refl).
Defined.

(** X18.  A request for an address whose PENDING row has not reached its
    expiry instant creates nothing: no platform invite, no ledger write.
    The answer is 200 with the URL [https://discord.gg/] followed by the
    code of that row, and the mail goes out again with that URL. *)
Theorem X18_unexpired_invite_is_reused env req w existing rest :
  valid_request req = true ->
  db_ok env QPendingByEmail = true ->
  sql_select_pending_by_email (ledger w) (string_of (req_email req)) = existing :: rest ->
  now env < expiresAt_of env existing ->
  mail_outcome env = MailOk ->
  generate_invite env req w =
    (Done (mkResponse 200 (Some ("https://discord.gg/" ++ invite_code existing)%string)),
     logged w
       [Console LOG (MsgValidPending (string_of (req_email req)) (invite_code existing));
        MailSend (string_of (req_email req))
          ("https://discord.gg/" ++ invite_code existing)%string;
        Console LOG MsgMailSent]).
Proof.
  intros Hvalid Hdb Hsel Hlt Hmail. unfold generate_invite.
  rewrite (valid_request_true _ Hvalid). run_handler. rewrite Hdb. simpl.
  rewrite Hsel. simpl.
  destruct (Z.ltb_spec (now env) (expiresAt_of env existing)) as [_|Hge]; [|lia].
  simpl. rewrite Hmail. simpl. now rewrite <- !app_assoc.
Qed.

Lemma X18_witness :
  generate_invite Sample2.env_ok (mkRequest (Some "a@x.com") (Some "R1")) Sample2.world
  = (Done (mkResponse 200 (Some "https://discord.gg/ABC123")),
     logged Sample2.world
       [Console LOG (MsgValidPending "a@x.com" "ABC123");
        MailSend "a@x.com" "https://discord.gg/ABC123";
        Console LOG MsgMailSent]).
Proof.
  apply (X18_unexpired_invite_is_reused Sample2.env_ok
           (mkRequest (Some "a@x.com") (Some "R1")) Sample2.world
           (Sample.pending "ABC123" "R1" "a@x.com" 30) []); reflexivity.
Defined.

(** X19.  When the PENDING row of the address has expired and was marked
    EXPIRED, but the new invite cannot be made (guild not cached, channel
    unusable, [createInvite] rejected, or the INSERT refused by the
    store), the answer is 500 and the address is left without any PENDING
    row: the old row stays EXPIRED and nothing replaces it. *)
Theorem X19_failed_regeneration_leaves_no_pending env req w existing rest :
  one_pending_per_email (ledger w) ->
  valid_request req = true ->
  db_ok env QPendingByEmail = true ->
  db_ok env QUpdateExpired = true ->
  sql_select_pending_by_email (ledger w) (string_of (req_email req)) = existing :: rest ->
  expiresAt_of env existing <= now env ->
  guild_cached env = false \/ channel_ok env = false \/ created_invite env = None \/
  db_ok env QInsert = false ->
  let w' := snd (generate_invite env req w) in
  fst (generate_invite env req w) = Done (mkResponse 500 None) /\
  ledger w' = sql_update_expired (ledger w) (invite_code existing) /\
  In (mark_expired existing) (ledger w') /\
  ~ In (string_of (req_email req)) (pending_emails (ledger w')).
Proof.
  intros Hone Hvalid Hdb Hupd Hsel Hge Hfail w'.
  assert (Hrun : fst (generate_invite env req w) = Done (mkResponse 500 None) /\
                 ledger w' = sql_update_expired (ledger w) (invite_code existing)).
  { subst w'. unfold generate_invite.
    rewrite (valid_request_true _ Hvalid). run_handler. rewrite Hdb. simpl.
    rewrite Hsel. simpl.
    destruct (Z.ltb_spec (now env) (expiresAt_of env existing)) as [Hlt|_]; [lia|].
    simpl. rewrite Hupd. simpl.
    destruct (guild_cached env); simpl; [|easy].
    destruct (channel_ok env); simpl; [|easy].
    destruct (created_invite env) as [invite|]; simpl; [|easy].
    destruct (db_ok env QInsert); simpl; [|easy].
    destruct Hfail as [Hf|[Hf|[Hf|Hf]]]; discriminate. }
  destruct Hrun as [Hresp Hl]. split; [exact Hresp|]. split; [exact Hl|]. rewrite Hl. split.
  - assert (Hex : In existing (sql_select_pending_by_email (ledger w)
                                 (string_of (req_email req)))) by (rewrite Hsel; now left).
    apply select_pending_by_email_In in Hex as (Hex & _).
    apply in_map_iff. exists existing. now rewrite String.eqb_refl.
  - now apply update_expired_clears_email with (rest := rest).
Qed.

Lemma X19_witness :
  fst (generate_invite (Sample2.env_no_guild (Sample.env 90000000 [] 0 []))
         Sample.request_e (Sample.world [] Sample.ledger_e))
  = Done (mkResponse 500 None)
  /\
  ledger (snd (generate_invite (Sample2.env_no_guild (Sample.env 90000000 [] 0 []))
                 Sample.request_e (Sample.world [] Sample.ledger_e)))
  = [mark_expired (Sample.pending "OLD001" "R1" "a@x.com" 0)].
Proof.
  destruct (X19_failed_regeneration_leaves_no_pending
              (Sample2.env_no_guild (Sample.env 90000000 [] 0 []))
              Sample.request_e (Sample.world [] Sample.ledger_e)
              (Sample.pending "OLD001" "R1" "a@x.com" 0) [])
    as (Hresp & Hl & _); try reflexivity.
  - distinct_keys.
  - vm_compute. discriminate.
  - now left.
  - split; [exact Hresp|exact Hl].
Defined.

(** X20.  The platform invite is created before the ledger row is
    written: when the store refuses the INSERT, the answer is 500 and no
    mail is sent, but the invite exists on the platform while the ledger
    has no row for it. *)
Theorem X20_refused_insert_orphans_invite env req w invite :
  valid_request req = true ->
  db_ok env QPendingByEmail = true ->
  sql_select_pending_by_email (ledger w) (string_of (req_email req)) = [] ->
  guild_cached env = true ->
  channel_ok env = true ->
  created_invite env = Some invite ->
  db_ok env QInsert = false ->
  generate_invite env req w =
    (Done (mkResponse 500 None),
     logged w [Console LOG MsgGuildFound;
               InviteIssued (ci_code invite);
               Console LOG (MsgInviteIssued (ci_code invite));
               Console ERROR MsgEndpointError]).
Proof.
  intros Hvalid Hdb Hsel Hguild Hchan Hinv Hins. unfold generate_invite.
  rewrite (valid_request_true _ Hvalid). run_handler. rewrite Hdb. simpl.
  rewrite Hsel. simpl. rewrite Hguild, Hchan. simpl. rewrite Hinv. simpl.
  rewrite Hins. simpl. now rewrite <- !app_assoc.
Qed.

Lemma X20_witness :
  generate_invite (Sample.env_db_down QInsert Sample2.env_ok) Sample2.request Sample2.world
  = (Done (mkResponse 500 None),
     logged Sample2.world
       [Console LOG MsgGuildFound;
        InviteIssued "NEW001";
        Console LOG (MsgInviteIssued "NEW001");
        Console ERROR MsgEndpointError]).
Proof.
  apply (X20_refused_insert_orphans_invite (Sample.env_db_down QInsert Sample2.env_ok)
           Sample2.request Sample2.world (mkCreated "NEW001" "https://discord.gg/NEW001"));
    reflexivity.
Defined.

Lemma select_pending_by_email_snoc l r e :
  email r = e -> status r = PENDING ->
  sql_select_pending_by_email (l ++ [r]) e = sql_select_pending_by_email l e ++ [r].
Proof.
  intros He Hp. unfold sql_select_pending_by_email. rewrite filter_app. simpl.
  apply String.eqb_eq in He. rewrite He. now apply is_pending_true in Hp as ->.
Qed.

(** X21.  Two requests in a row for an address without a PENDING row:
    when the first one gets its platform invite and its INSERT through
    (its mail may even fail), a second request made before creation time
    plus time-to-live creates nothing and answers 200 with the URL
    [https://discord.gg/] followed by the code of the first invite. *)
Theorem X21_second_request_reuses_first env1 env2 req w invite :
  valid_request req = true ->
  sql_select_pending_by_email (ledger w) (string_of (req_email req)) = [] ->
  db_ok env1 QPendingByEmail = true ->
  guild_cached env1 = true ->
  channel_ok env1 = true ->
  created_invite env1 = Some invite ->
  db_ok env1 QInsert = true ->
  ~ In (ci_code invite) (codes (ledger w)) ->
  db_ok env2 QPendingByEmail = true ->
  now env2 < now_create env1 + inviteTTLSeconds env2 * 1000 ->
  mail_outcome env2 = MailOk ->
  let w1 := snd (generate_invite env1 req w) in
  generate_invite env2 req w1 =
    (Done (mkResponse 200 (Some ("https://discord.gg/" ++ ci_code invite)%string)),
     logged w1
       [Console LOG (MsgValidPending (string_of (req_email req)) (ci_code invite));
        MailSend (string_of (req_email req)) ("https://discord.gg/" ++ ci_code invite)%string;
        Console LOG MsgMailSent]).
Proof.
  intros Hvalid Hsel Hdb1 Hguild Hchan Hinv Hins Hfresh Hdb2 Hlt Hmail w1.
  set (r := new_record (ci_code invite) (string_of (req_roleId req))
              (string_of (req_email req)) (now_create env1)
              (now_create env1 + inviteTTLSeconds env1 * 1000)).
  assert (Hl1 : ledger w1 = ledger w ++ [r]).
  { subst w1. unfold generate_invite.
    rewrite (valid_request_true _ Hvalid). run_handler. rewrite Hdb1. simpl.
    rewrite Hsel. simpl. rewrite Hguild, Hchan. simpl. rewrite Hinv. simpl.
    rewrite Hins. simpl. unfold sql_insert. subst r. simpl.
    rewrite (existsb_eqb_false _ _ Hfresh). simpl.
    now destruct (mail_outcome env1). }
  assert (Hsel1 : sql_select_pending_by_email (ledger w1) (string_of (req_email req)) = [r]).
  { rewrite Hl1, select_pending_by_email_snoc by easy. now rewrite Hsel. }
  clearbody w1.
  unfold generate_invite.
  rewrite (valid_request_true _ Hvalid). run_handler. rewrite Hdb2. simpl.
  rewrite Hsel1. simpl.
  destruct (Z.ltb_spec (now env2) (expiresAt_of env2 r)) as [_|Hge];
    [|unfold expiresAt_of in Hge; simpl in Hge; lia].
  simpl. rewrite Hmail. simpl. now rewrite <- !app_assoc.
Qed.

Lemma X21_witness :
  fst (generate_invite Sample2.env_ok Sample2.request
         (snd (generate_invite Sample2.env_ok Sample2.request Sample2.world)))
  = Done (mkResponse 200 (Some "https://discord.gg/NEW001")).
Proof.
  rewrite (X21_second_request_reuses_first Sample2.env_ok Sample2.env_ok Sample2.request
             Sample2.world (mkCreated "NEW001" "https://discord.gg/NEW001"));
    try reflexivity.
  simpl. intuition discriminate.
Defined.

(* ------------------------------------------------------------------ *)
(** ** The life of a ledger row *)

(** What one handler run can do to the ledger, with the PENDING row that
    an UPDATE to USED presupposes. *)
Lemma handler_run_ledger_pending w w' :
  handler_run w w' ->
  ledger w' = ledger w \/
  (exists t m c row,
      In row (ledger w) /\ invite_code row = c /\ status row = PENDING /\
      ledger w' = sql_update_used (ledger w) t m c) \/
  (exists env req, ledger w' = ledger (snd (generate_invite env req w))).
Proof.
  intros [env guildId w0|gId code uses w0|gId code w0|env member w0
         |env oldPending newMember w0|env req w0].
  - left. unfold populateGuildInvites. run_handler.
    destruct (fetched_guild env); simpl; [|easy].
    now destruct (fetched_invites env).
  - left. unfold inviteCreate.
    destruct (negb (truthy gId) || negb (truthy code)); [easy|]. run_handler.
    now destruct (negb (JsMap.has (inviteCache w0) (string_of gId))).
  - left. unfold inviteDelete.
    destruct (negb (truthy gId) || negb (truthy code)); [easy|]. run_handler.
    now destruct (JsMap.get (inviteCache w0) (string_of gId)).
  - destruct (fetched_invites env) as [coll|] eqn:Hfetch.
    + destruct (attribution_done env (snapshot (inviteCache w0) (member_guild member)) coll w0)
        as (u & evs & Hattr).
      rewrite (guildMemberAdd_run env member w0 coll u evs Hfetch Hattr). cbv zeta.
      destruct (negb (truthy u)); [now left|].
      destruct (member_pending member); [now left|].
      match goal with
      | |- context [asignarRolPorInvite env member ?c ?w1] =>
          destruct (asignarRolPorInvite_effects env member c w1)
            as (_ & _ & [[Hl _]|(row & rest & Hsel & _ & [Hl|Hl])])
      end; rewrite Hl; simpl; [now left|now left|].
      right. left. exists (now env), (member_user_id member), (string_of u), row.
      apply select_pending_by_code_In in Hsel as (Hin & Hcode & Hp). now repeat split.
    + left. unfold guildMemberAdd, bind, get_cache, from_option. now rewrite Hfetch.
  - unfold guildMemberUpdate.
    destruct (oldPending && negb (member_pending newMember)); [|now left].
    unfold try_catch, bind, db_query, console, emit, get_ledger, ret, throw.
    destruct (db_ok env QLatestForMember); simpl; [|now left].
    destruct (screening_rows env) as [|code rows]; simpl; [now left|].
    match goal with
    | |- context [asignarRolPorInvite env newMember ?c ?w1] =>
        destruct (asignarRolPorInvite_effects env newMember c w1)
          as (Hdone & _ & [[Hl _]|(row & rest & Hsel & _ & [Hl|Hl])]);
        destruct (asignarRolPorInvite env newMember c w1) as [res w2]
    end; simpl in *; subst res; simpl; rewrite Hl; [now left|now left|].
    right. left. exists (now env), (member_user_id newMember), code, row.
    apply select_pending_by_code_In in Hsel as (Hin & Hcode & Hp). now repeat split.
  - right. right. now exists env, req.
Qed.

Lemma row_kept_refl r : row_kept r r.
Proof. now repeat split. Qed.

Lemma row_kept_trans r1 r2 r3 : row_kept r1 r2 -> row_kept r2 r3 -> row_kept r1 r3.
Proof.
  intros (Hc & Hr & He & Hcr & Hex & Hp) (Hc' & Hr' & He' & Hcr' & Hex' & Hp').
  repeat split; try congruence.
  intros H3. specialize (Hp' H3). subst r3. now apply Hp.
Qed.

Lemma Forall2_row_kept_refl l : Forall2 row_kept l l.
Proof. induction l; constructor; [apply row_kept_refl|easy]. Qed.

Lemma Forall2_row_kept_trans l1 l2 l3 :
  Forall2 row_kept l1 l2 -> Forall2 row_kept l2 l3 -> Forall2 row_kept l1 l3.
Proof.
  intros H12. revert l3. induction H12 as [|r1 r2 l1 l2 Hr _ IH]; intros l3 H23.
  - now inversion H23.
  - inversion H23 as [|? r3 ? l3' Hr' H23']; subst. constructor.
    + now apply row_kept_trans with r2.
    + now apply IH.
Qed.

Lemma sql_update_row_kept g l c :
  (forall r, status (g r) <> PENDING /\ row_kept r (g r) \/ g r = r) ->
  Forall2 row_kept l (sql_update g l c).
Proof.
  intros Hg. apply Forall2_map_same. intros x _.
  destruct (String.eqb (invite_code x) c); [|apply row_kept_refl].
  destruct (Hg x) as [[_ Hk]| ->]; [easy|apply row_kept_refl].
Qed.

Lemma mark_used_row_kept t m r : row_kept r (mark_used t m r).
Proof. repeat split. discriminate. Qed.

Lemma mark_expired_row_kept r : row_kept r (mark_expired r).
Proof. repeat split. discriminate. Qed.

(** One write keeps the stored rows in place and adds at most one row. *)
Lemma ledger_write_kept l l' :
  ledger_write l l' ->
  exists kept added, l' = kept ++ added /\ Forall2 row_kept l kept /\
                     Forall (fun r => status r = PENDING) added.
Proof.
  intros [l0 t m c|l0 c|l0 r l1 Hp Hins].
  - exists (sql_update_used l0 t m c), []. rewrite app_nil_r.
    repeat split; [|constructor].
    apply sql_update_row_kept. intros r. left.
    split; [discriminate|apply mark_used_row_kept].
  - exists (sql_update_expired l0 c), []. rewrite app_nil_r.
    repeat split; [|constructor].
    apply sql_update_row_kept. intros r. left.
    split; [discriminate|apply mark_expired_row_kept].
  - apply sql_insert_some in Hins as [-> _]. exists l0, [r].
    repeat split; [apply Forall2_row_kept_refl|now repeat constructor].
Qed.

Lemma ledger_writes_kept l l' :
  ledger_writes l l' ->
  exists kept added, l' = kept ++ added /\ Forall2 row_kept l kept.
Proof.
  induction 1 as [l|l l1 l2 _ IH Hw].
  - exists l, []. rewrite app_nil_r. split; [easy|apply Forall2_row_kept_refl].
  - destruct IH as (k1 & a1 & -> & Hk1).
    destruct (ledger_write_kept _ _ Hw) as (k2 & a2 & -> & Hk2 & _).
    apply Forall2_app_inv_l in Hk2 as (k2a & k2b & Hka & _ & ->).
    exists k2a, (k2b ++ a2). rewrite app_assoc. split; [easy|].
    now apply Forall2_row_kept_trans with k1.
Qed.

Lemma ledger_writes_one l l' : ledger_write l l' -> ledger_writes l l'.
Proof. intros H. eapply writes_then; [apply writes_none|exact H]. Qed.

Lemma sql_insert_fresh l r :
  ~ In (invite_code r) (codes l) -> sql_insert l r = Some (l ++ [r]).
Proof. intros H. unfold sql_insert. now rewrite (existsb_eqb_false _ _ H). Qed.

(** A run of the route writes the ledger through the statements of
    [ledger_write] only. *)
Lemma generate_invite_writes env req w :
  ledger_writes (ledger w) (ledger (snd (generate_invite env req w))).
Proof.
  destruct (generate_invite_ledger env req w)
    as [-> | [(r & _ & -> & _ & Hp & Hfresh)
             | (ex & rest & _ & _ & [-> | (r & -> & _ & Hp & Hfresh)])]].
  - apply writes_none.
  - apply ledger_writes_one, write_insert with (r := r); [easy|now apply sql_insert_fresh].
  - apply ledger_writes_one, write_expired.
  - eapply writes_then; [apply ledger_writes_one, write_expired|].
    apply write_insert with (r := r); [easy|].
    apply sql_insert_fresh. now rewrite codes_update_expired.
Qed.

Lemma handler_run_writes w w' : handler_run w w' -> ledger_writes (ledger w) (ledger w').
Proof.
  intros Hrun.
  destruct (handler_run_ledger_pending _ _ Hrun)
    as [-> | [(t & m & c & row & _ & _ & _ & ->) | (env & req & ->)]].
  - apply writes_none.
  - apply ledger_writes_one, write_used.
  - apply generate_invite_writes.
Qed.

(** The parts of the two handlers that are cut at an await write the
    ledger through the same statements. *)
Lemma parts_write env member code req stage w :
  ledger (snd (asignarRolPorInvite_grant env member code w)) = ledger w /\
  ledger_writes (ledger w) (ledger (snd (asignarRolPorInvite_markUsed env member code w))) /\
  ledger_writes (ledger w) (ledger (snd (generate_invite_prepare env req w))) /\
  ledger_writes (ledger w) (ledger (snd (generate_invite_finish env req stage w))).
Proof.
  split; [|split; [|split]].
  - unfold asignarRolPorInvite_grant. run_handler.
    destruct (db_ok env QPendingByCode); simpl; [|easy].
    destruct (sql_select_pending_by_code (ledger w) code) as [|row rest]; simpl; [easy|].
    destruct (JsMap.get (guild_roles env) (role_id row)) as [role|]; simpl; [|easy].
    destruct (bot_highest env) as [h|]; simpl; [|easy].
    destruct (position role >=? h); simpl; [easy|].
    now destruct (roles_add_ok env).
  - unfold asignarRolPorInvite_markUsed. run_handler.
    destruct (db_ok env QUpdateUsed); simpl; [|apply writes_none].
    apply ledger_writes_one, write_used.
  - unfold generate_invite_prepare.
    destruct (negb (truthy (req_email req)) || negb (truthy (req_roleId req)));
      [apply writes_none|].
    run_handler. issuance_cases.
    all: first [apply writes_none | apply ledger_writes_one, write_expired].
  - unfold generate_invite_finish. destruct stage as [resp|url|invite]; run_handler.
    + apply writes_none.
    + destruct (mail_outcome env); apply writes_none.
    + destruct (db_ok env QInsert); simpl; [|apply writes_none].
      match goal with
      | |- context [sql_insert ?l0 ?r0] =>
          destruct (sql_insert l0 r0) as [l1|] eqn:Hins; simpl
      end.
      * assert (Hw : ledger_writes (ledger w) l1)
          by (apply ledger_writes_one; now apply write_insert with (r := new_record
                (ci_code invite) (string_of (req_roleId req)) (string_of (req_email req))
                (now_create env) (now_create env + inviteTTLSeconds env * 1000))).
        now destruct (mail_outcome env).
      * apply writes_none.
Qed.

(** X22.  The handlers write the ledger through three statements only:
    the UPDATE to USED, the UPDATE to EXPIRED and the INSERT of a PENDING
    row (each handler run, and each part of a run cut at an await, is a
    sequence of them).  However such writes are ordered, and so under
    every schedule of the handlers, no row is removed or moved, every
    row keeps the code, role, email, creation time and expiry it was
    stored with, and a row that is PENDING afterwards is unchanged: no
    row that left PENDING returns to it.  New rows are added at the end. *)
Theorem X22_rows_never_return_to_pending :
  (forall w w', handler_run w w' -> ledger_writes (ledger w) (ledger w')) /\
  (forall env member code req stage w,
     ledger (snd (asignarRolPorInvite_grant env member code w)) = ledger w /\
     ledger_writes (ledger w) (ledger (snd (asignarRolPorInvite_markUsed env member code w))) /\
     ledger_writes (ledger w) (ledger (snd (generate_invite_prepare env req w))) /\
     ledger_writes (ledger w) (ledger (snd (generate_invite_finish env req stage w)))) /\
  (forall l l', ledger_writes l l' ->
     exists kept added, l' = kept ++ added /\ Forall2 row_kept l kept).
Proof.
  split; [exact handler_run_writes|]. split; [exact parts_write|exact ledger_writes_kept].
Qed.

Lemma X22_witness :
  exists kept added,
    ledger (snd (generate_invite (Sample.env 90000000 [] 0 []) Sample.request_e
                   (Sample.world [] Sample.ledger_e)))
    = kept ++ added /\
    Forall2 row_kept Sample.ledger_e kept.
Proof.
  destruct X22_rows_never_return_to_pending as (Hrun & _ & Hkept).
  apply Hkept. apply (Hrun (Sample.world [] Sample.ledger_e)). apply run_generate_invite.
Defined.

(* ------------------------------------------------------------------ *)
(** ** Invariants of the reachable worlds *)

(** X23.  When the handler runs do not overlap (each run ends before
    the next one starts), every world reached from the empty one, with
    the runs in any order and under any failures of the store, the
    platform or the mail service, has a ledger with at most one PENDING
    row per email and (the store refusing a duplicate [invite_code]) no
    two rows with the same code.  Overlapping runs are not covered:
    two requests that run into each other can leave two PENDING rows. *)
Theorem X23_sequential_runs_keep_ledger_invariant w :
  reachable w ->
  unique_codes (ledger w) /\ one_pending_per_email (ledger w).
Proof. apply reachable_ledger_invariant. Qed.

Lemma X23_witness :
  unique_codes
    (ledger (snd (guildMemberAdd Sample2.env_ok Sample.member
                    (snd (generate_invite Sample2.env_ok Sample2.request initial_world)))))
  /\
  one_pending_per_email
    (ledger (snd (guildMemberAdd Sample2.env_ok Sample.member
                    (snd (generate_invite Sample2.env_ok Sample2.request initial_world))))).
Proof.
  apply X23_sequential_runs_keep_ledger_invariant.
  eapply reachable_step; [|apply run_guildMemberAdd].
  eapply reachable_step; [|apply run_generate_invite].
  apply reachable_initial.
Defined.

Lemma cache_wf_set c g m : cache_wf c -> JsMap.wf m -> cache_wf (JsMap.set c g m).
Proof.
  intros [Hc Hm] Hwf. split; [now apply JsMapLaws.wf_set|].
  intros g' m' Hin. apply JsMapLaws.In_set in Hin as [[_ ->]|Hin]; [easy|].
  now apply (Hm g').
Qed.

Lemma cache_wf_snapshot c g : cache_wf c -> JsMap.wf (snapshot c g).
Proof.
  intros [_ Hm]. unfold snapshot. destruct (JsMap.get c g) as [m|] eqn:Hget.
  - apply JsMapFacts.get_In in Hget. now apply (Hm g).
  - constructor.
Qed.

Lemma generate_invite_cache env req w :
  inviteCache (snd (generate_invite env req w)) = inviteCache w.
Proof.
  unfold generate_invite.
  destruct (negb (truthy (req_email req)) || negb (truthy (req_roleId req))); [easy|].
  run_handler. issuance_cases. all: reflexivity.
Qed.

Lemma handler_run_cache w w' :
  handler_run w w' -> cache_wf (inviteCache w) -> cache_wf (inviteCache w').
Proof.
  intros [env guildId w0|gId code uses w0|gId code w0|env member w0
         |env oldPending newMember w0|env req w0] Hwf.
  - unfold populateGuildInvites. run_handler.
    destruct (fetched_guild env); simpl; [|easy].
    destruct (fetched_invites env); simpl; [|easy].
    apply cache_wf_set; [easy|apply snapshot_of_wf].
  - unfold inviteCreate.
    destruct (negb (truthy gId) || negb (truthy code)); [easy|]. run_handler.
    destruct (negb (JsMap.has (inviteCache w0) (string_of gId))); simpl.
    + apply cache_wf_set; [apply cache_wf_set; [easy|constructor]|].
      apply JsMapLaws.wf_set. apply cache_wf_snapshot.
      apply cache_wf_set; [easy|constructor].
    + apply cache_wf_set; [easy|]. apply JsMapLaws.wf_set. now apply cache_wf_snapshot.
  - unfold inviteDelete.
    destruct (negb (truthy gId) || negb (truthy code)); [easy|]. run_handler.
    destruct (JsMap.get (inviteCache w0) (string_of gId)) as [m|] eqn:Hget; simpl; [|easy].
    apply cache_wf_set; [easy|]. apply JsMapLaws.wf_delete.
    apply JsMapFacts.get_In in Hget. now apply (proj2 Hwf (string_of gId)).
  - destruct (fetched_invites env) as [coll|] eqn:Hfetch.
    + destruct (attribution_done env (snapshot (inviteCache w0) (member_guild member)) coll w0)
        as (u & evs & Hattr).
      rewrite (guildMemberAdd_run env member w0 coll u evs Hfetch Hattr). cbv zeta.
      assert (Hset : cache_wf (JsMap.set (inviteCache w0) (member_guild member)
                                 (snapshot_of coll)))
        by (apply cache_wf_set; [easy|apply snapshot_of_wf]).
      destruct (negb (truthy u)); [easy|].
      destruct (member_pending member); [easy|].
      match goal with
      | |- context [asignarRolPorInvite env member ?c ?w1] =>
          destruct (asignarRolPorInvite_effects env member c w1) as (_ & Hcache & _)
      end.
      now rewrite Hcache.
    + unfold guildMemberAdd, bind, get_cache, from_option. now rewrite Hfetch.
  - unfold guildMemberUpdate.
    destruct (oldPending && negb (member_pending newMember)); [|easy].
    unfold try_catch, bind, db_query, console, emit, get_ledger, ret, throw.
    destruct (db_ok env QLatestForMember); simpl; [|easy].
    destruct (screening_rows env) as [|code rows]; simpl; [easy|].
    match goal with
    | |- context [asignarRolPorInvite env newMember ?c ?w1] =>
        destruct (asignarRolPorInvite_effects env newMember c w1) as (Hdone & Hcache & _);
        destruct (asignarRolPorInvite env newMember c w1) as [res w2]
    end.
    simpl in *. subst res. simpl. now rewrite Hcache.
  - now rewrite generate_invite_cache.
Qed.

(** X24.  In every world reached from the empty one by handler runs, the
    cache holds each guild once and each guild's snapshot holds each code
    once: populate, the two notifications and the join refresh never
    leave a duplicate key behind. *)
Theorem X24_reachable_cache w : reachable w -> cache_wf (inviteCache w).
Proof.
  induction 1 as [|w w' _ IH Hrun].
  - split; [constructor|]. intros g m [].
  - now apply (handler_run_cache w).
Qed.

Lemma X24_witness :
  cache_wf
    (inviteCache (snd (inviteCreate (Some "G1") (Some "ABC123") (Some 0)
                         (snd (populateGuildInvites Sample2.env_ok "G1" initial_world))))).
Proof.
  apply X24_reachable_cache.
  eapply reachable_step; [|apply run_inviteCreate].
  eapply reachable_step; [|apply run_populate].
  apply reachable_initial.
Defined.

(* ------------------------------------------------------------------ *)
(** ** The tie-break of the increment scan *)

(** X25.  When the counts of several codes rose, the attribution is the
    first of them in the iteration order of the fetched list, whatever
    follows it in the list, whichever codes vanished and whatever the
    ledger holds. *)
Theorem X25_first_increase_wins env old pre c inv post w :
  c <> "" ->
  nullish (JsMap.get old c) < nullish (inv_uses inv) ->
  (forall k i, In (k, i) pre -> nullish (inv_uses i) <= nullish (JsMap.get old k)) ->
  attribution env old (pre ++ (c, inv) :: post) w =
    (Done (Some c), logged w [Console LOG (MsgIncrement c)]).
Proof.
  intros Hc Hlt Hpre. apply attribution_increment; [|easy].
  now apply increment_scan_first.
Qed.

Lemma X25_witness :
  attribution Sample2.env_ok [("STILL1", 4); ("FIRST1", 1); ("SECOND", 1); ("GONE01", 0)]
    ([("STILL1", Sample.inv "STILL1" 4)] ++
     ("FIRST1", Sample.inv "FIRST1" 2) :: [("SECOND", Sample.inv "SECOND" 5)])
    Sample2.world
  = (Done (Some "FIRST1"), logged Sample2.world [Console LOG (MsgIncrement "FIRST1")]).
Proof.
  apply X25_first_increase_wins.
  - discriminate.
  - reflexivity.
  - intros k i [H|[]]. injection H as <- <-. vm_compute. discriminate.
Defined.

(* ------------------------------------------------------------------ *)
(** ** Handlers that run into each other *)

(** Run one after the other, the two parts of the grantor are the grantor. *)
Lemma asignarRolPorInvite_parts env member code w :
  asignarRolPorInvite env member code w =
    (proceed <- asignarRolPorInvite_grant env member code ;;
     if proceed then asignarRolPorInvite_markUsed env member code else ret tt) w.
Proof.
  unfold asignarRolPorInvite_grant, asignarRolPorInvite_markUsed. run_handler.
  destruct (db_ok env QPendingByCode); simpl; [|easy].
  destruct (sql_select_pending_by_code (ledger w) code) as [|row rest]; simpl; [easy|].
  destruct (JsMap.get (guild_roles env) (role_id row)) as [role|]; simpl; [|easy].
  destruct (bot_highest env) as [h|]; simpl; [|easy].
  destruct (position role >=? h); simpl; [easy|].
  destruct (roles_add_ok env); simpl; [|easy].
  now destruct (db_ok env QUpdateUsed).
Qed.

(** Run one after the other, the two parts of the route are the route. *)
Lemma generate_invite_parts env req w :
  generate_invite env req w =
    (stage <- generate_invite_prepare env req ;; generate_invite_finish env req stage) w.
Proof.
  unfold generate_invite, generate_invite_prepare, generate_invite_finish.
  destruct (negb (truthy (req_email req)) || negb (truthy (req_roleId req))); [easy|].
  run_handler. issuance_cases. all: reflexivity.
Qed.

(** The claim C4 as first stated fails.  Two joins are attributed to the
    code [ABC123], whose row is PENDING.  The first run passes its SELECT
    and assigns the role; while it awaits, the second run does the same
    and marks the row USED for member [u2] at time 35.  The first run
    then sends its UPDATE, which has no status condition: the row, USED
    when the UPDATE arrives, is restamped for member [u1] at time 40.
    Both members hold the role. *)
Lemma C4_counterexample :
  fst (asignarRolPorInvite_grant Schedule.env_a Schedule.member_a "ABC123" Sample2.world)
  = Done true /\
  ledger Schedule.after_run_b
  = [Sample.used "USED01" "R1" "c@x.com" 20 25 "u0";
     Sample.used "ABC123" "R1" "a@x.com" 30 35 "u2"] /\
  ledger Schedule.after_markUsed_a
  = [Sample.used "USED01" "R1" "c@x.com" 20 25 "u0";
     Sample.used "ABC123" "R1" "a@x.com" 30 40 "u1"] /\
  memberRoles Schedule.after_markUsed_a = [("u1", "R1"); ("u2", "R1")].
Proof. repeat split. Qed.

(** The claim C7 as first stated fails.  Two requests for the address
    [new@x.com], which has no PENDING row.  The first passes its SELECT
    and awaits [createInvite]; the second then passes its own SELECT,
    which still finds nothing.  Both insert their row and answer 200:
    the address has two PENDING rows. *)
Lemma C7_counterexample :
  fst (generate_invite_prepare Schedule.env_1 Sample2.request initial_world)
  = Done (StageInsert Schedule.invite_1) /\
  fst (generate_invite_prepare Schedule.env_2 Sample2.request Schedule.after_prepare_1)
  = Done (StageInsert Schedule.invite_2) /\
  fst (generate_invite_finish Schedule.env_1 Sample2.request
         (StageInsert Schedule.invite_1) Schedule.after_prepare_2)
  = Done (mkResponse 200 (Some "https://discord.gg/NEW001")) /\
  fst (generate_invite_finish Schedule.env_2 Sample2.request
         (StageInsert Schedule.invite_2) Schedule.after_finish_1)
  = Done (mkResponse 200 (Some "https://discord.gg/NEW002")) /\
  ledger Schedule.after_finish_2
  = [Sample.pending "NEW001" "R1" "new@x.com" 40;
     Sample.pending "NEW002" "R1" "new@x.com" 40] /\
  ~ one_pending_per_email (ledger Schedule.after_finish_2).
Proof.
  repeat split.
  intros Hnd. inversion Hnd as [|? ? Hnotin _]. apply Hnotin. now left.
Qed.
